(* ===================================================================== *)
(* ProbeBot: trading ledger, signal engine, order executor, price tracker *)
(* ===================================================================== *)
(* A shallow embedding of the core of the bot:
     config.js       getFullSymbol, getBaseToken
     TradingBot      monitorToken, updateMonitoring, buy, sell
     OrderExecutor   executeBuy, executeSell (split at the awaited
                     exchange call)
     MarketData      updatePrice, getPrice
   The numbers the bot stores (prices, thresholds, balance, quantities)
   are kept as exact rationals (Qc), each standing for the double nearest
   to it; a rational that is a double stands for itself.  The two
   percentages of updateMonitoring, whose comparison with a threshold is
   the signal decision, are evaluated in binary64 as the code evaluates
   them, with the Standard Library's IEEE 754 operations (SpecFloat):
   every operation rounds to nearest, ties to even, a division by zero
   gives an infinity or NaN, and a comparison with NaN is false.  The
   money arithmetic of buy and sell is exact; NaN, the infinities and -0
   as stored values are outside the model.  Clock reads (Date.now(),
   new Date()) are an explicit argument.  Maps are gmap, the in-flight
   Set is a gset. *)

From Stdlib Require Import QArith Qcanon Qround Qpower Lqa SpecFloat.
From stdpp Require Import base strings gmap sets list fin_maps.

(* --------------------------------------------------------------------- *)
(* config.js                                                              *)
(* --------------------------------------------------------------------- *)

Module Config.

(* CONFIG.QUOTE_CURRENCY *)
Definition QUOTE_CURRENCY : string := "USDT".

(* s.slice(n) *)
Fixpoint str_drop (n : nat) (s : string) : string :=
  match n, s with
  | O, _ => s
  | S _, EmptyString => EmptyString
  | S n', String _ s' => str_drop n' s'
  end.

(* s.startsWith(p) *)
Fixpoint starts_with (p s : string) : bool :=
  match p, s with
  | EmptyString, _ => true
  | String _ _, EmptyString => false
  | String a p', String b s' => Ascii.eqb a b && starts_with p' s'
  end.

(* s.indexOf(pat): the start of the first occurrence of pat in s *)
Fixpoint index_of (pat s : string) : option nat :=
  if starts_with pat s then Some O
  else match s with
       | EmptyString => None
       | String _ s' => S <$> index_of pat s'
       end.

(* s.replace(pat, rep) for a string pattern: only the first occurrence
   of pat is replaced; without an occurrence s is returned as it is. *)
Fixpoint replace_first (pat rep s : string) : string :=
  if starts_with pat s then rep +:+ str_drop (String.length pat) s
  else match s with
       | EmptyString => EmptyString
       | String c s' => String c (replace_first pat rep s')
       end.

(* export function getFullSymbol(token) *)
Definition getFullSymbol (token : string) : string :=
  token +:+ QUOTE_CURRENCY.

(* export function getBaseToken(symbol) *)
Definition getBaseToken (symbol : string) : string :=
  replace_first QUOTE_CURRENCY "" symbol.

(* pat occurs in s as a substring *)
Definition contains (pat s : string) : Prop :=
  ∃ a b : string, s = a +:+ pat +:+ b.

End Config.

(* --------------------------------------------------------------------- *)
(* JavaScript numbers, as exact rationals                                 *)
(* --------------------------------------------------------------------- *)

Module Num.

Local Open Scope Qc_scope.

(* an integer literal *)
Definition num (z : Z) : Qc := Q2Qc (inject_Z z).
(* a decimal literal n/d, e.g. 106.59 = dec 10659 100 *)
Definition dec (n : Z) (d : positive) : Qc := Q2Qc (n # d).

(* a <= b and a < b as JavaScript evaluates them, to a boolean *)
Definition leb (a b : Qc) : bool := Qle_bool a b.
Definition ltb (a b : Qc) : bool := negb (Qle_bool b a).
(* a >= b, a > b *)
Definition geb (a b : Qc) : bool := leb b a.
Definition gtb (a b : Qc) : bool := ltb b a.
(* a === 0, the only falsy rational *)
Definition is_zero (a : Qc) : bool := Qeq_bool a 0.

(* x.toFixed(4): the nearest multiple of 1/10000, a tie going away from
   zero; the digits are kept as a number, not as text. *)
Definition round_half_up (q : Q) : Z := Qfloor (q + (1 # 2))%Q.
Definition toFixed4 (x : Qc) : Qc :=
  if ltb x 0
  then - Q2Qc (round_half_up (- x * num 10000) # 10000)
  else Q2Qc (round_half_up (x * num 10000) # 10000).

End Num.

(* --------------------------------------------------------------------- *)
(* JavaScript numbers, as binary64 doubles                                *)
(* --------------------------------------------------------------------- *)

Module Float64.

(* binary64: 53 bits of mantissa, the infinities at exponent 1024 *)
Definition prec : Z := 53.
Definition emax : Z := 1024.

(* The double a stored number stands for: the quotient of the numerator
   by the denominator, rounded once (to nearest, ties to even; beyond the
   largest double, an infinity).  A rational that is a double is kept. *)
Definition of_Qc (q : Qc) : spec_float :=
  match Qnum q with
  | Z0 => S754_zero false
  | Zpos n =>
      SFdiv prec emax (S754_finite false n 0) (S754_finite false (Qden q) 0)
  | Zneg n =>
      SFdiv prec emax (S754_finite true n 0) (S754_finite false (Qden q) 0)
  end.

(* x - y, x * y, x / y *)
Definition sub (x y : spec_float) : spec_float := SFsub prec emax x y.
Definition mul (x y : spec_float) : spec_float := SFmul prec emax x y.
Definition div (x y : spec_float) : spec_float := SFdiv prec emax x y.

(* x >= y: false when either side is NaN *)
Definition geb (x y : spec_float) : bool := SFleb y x.

(* the exact value of a double, where it has one *)
Definition to_Qc (x : spec_float) : option Qc :=
  match x with
  | S754_zero _ => Some (Q2Qc 0)
  | S754_finite s m e =>
      let v := (inject_Z (Zpos m) * Qpower 2 e)%Q in
      Some (Q2Qc (if s then Qopp v else v))
  | S754_infinity _ | S754_nan => None
  end.

End Float64.

(* --------------------------------------------------------------------- *)
(* TradingBot                                                             *)
(* --------------------------------------------------------------------- *)

Module TradingBot.
Import Num.
Local Open Scope Qc_scope.

(* this.config *)
Record BotConfig := {
  cfg_initialBalance : Qc;
  buyThreshold : Qc;
  sellThreshold : Qc;
  tradeAmountPercent : Qc;
  minTradeAmount : Qc;
  maxPositions : Qc;
}.

(* the token objects handed to the bot: the fields it reads *)
Record Token := { symbol : string; currentPrice : Qc }.

(* an entry of this.monitoredTokens *)
Record Monitored := {
  mon_symbol : string;
  monitorStartPrice : Qc;
  highestPrice : Qc;
  lowestPrice : Qc;
}.

(* an entry of this.positions *)
Record Position := {
  pos_symbol : string;
  amount : Qc;
  buyPrice : Qc;
  peakPrice : Qc;
  buyTime : Z;
}.

Inductive Side := Buy | Sell.

(* The reason strings are template literals around numbers printed with
   toFixed(2); the numbers are kept, the rendering is not modelled. *)
Inductive Reason :=
  | PriceIncreased (increaseFromLowest : spec_float)
  | PriceDropped (dropFromPeak : spec_float) (peak : Qc)
  | ReasonText (text : string).

(* the fields only a sell trade has *)
Record Sale := {
  sale_buyPrice : Qc;
  sale_peakPrice : Qc;
  profit : Qc;
  profitPercent : Qc;
}.

(* an entry of this.tradeHistory *)
Record Trade := {
  id : Z;
  type : Side;
  trade_symbol : string;
  price : Qc;
  trade_amount : Qc;
  total : Qc;
  time : Z;
  reason : Reason;
  sale : option Sale;
}.

Record Stats := {
  totalTrades : nat;
  winningTrades : nat;
  losingTrades : nat;
}.

Record Bot := {
  config : BotConfig;
  balance : Qc;
  initialBalance : Qc;
  positions : gmap string Position;
  monitoredTokens : gmap string Monitored;
  tradeHistory : list Trade;
  stats : Stats;
}.

(* { type, token, reason } *)
Record Signal := { sig_type : Side; sig_token : Token; sig_reason : Reason }.

(* { success: true, trade } or { success: false, message } *)
Inductive BotResult :=
  | Done (trade : Trade)
  | MaxPositionsReached
  | InsufficientBalance
  | NoPosition.

Definition success (r : BotResult) : bool :=
  match r with Done _ => true | _ => false end.

Definition message (r : BotResult) : option string :=
  match r with
  | Done _ => None
  | MaxPositionsReached => Some "Maximum positions reached"
  | InsufficientBalance => Some "Insufficient balance"
  | NoPosition => Some "No position found"
  end.

(* constructor(config = {}) *)
Definition defaultConfig : BotConfig :=
  {| cfg_initialBalance := num 10000; buyThreshold := num 2;
     sellThreshold := num 3; tradeAmountPercent := num 25;
     minTradeAmount := num 1; maxPositions := num 4 |}.

Definition new (cfg : BotConfig) : Bot :=
  {| config := cfg;
     balance := cfg_initialBalance cfg;
     initialBalance := cfg_initialBalance cfg;
     positions := ∅;
     monitoredTokens := ∅;
     tradeHistory := [];
     stats := {| totalTrades := 0; winningTrades := 0; losingTrades := 0 |} |}.

(* this.positions.size, as a number *)
Definition positions_size (bot : Bot) : Qc :=
  num (Z.of_nat (size (positions bot))).

Definition set_monitoredTokens (bot : Bot) (ms : gmap string Monitored) : Bot :=
  {| config := config bot; balance := balance bot;
     initialBalance := initialBalance bot; positions := positions bot;
     monitoredTokens := ms; tradeHistory := tradeHistory bot;
     stats := stats bot |}.

Definition set_positions (bot : Bot) (ps : gmap string Position) : Bot :=
  {| config := config bot; balance := balance bot;
     initialBalance := initialBalance bot; positions := ps;
     monitoredTokens := monitoredTokens bot; tradeHistory := tradeHistory bot;
     stats := stats bot |}.

(* updateConfig(config) with every field given *)
Definition updateConfig (bot : Bot) (cfg : BotConfig) : Bot :=
  {| config := cfg; balance := balance bot;
     initialBalance := initialBalance bot; positions := positions bot;
     monitoredTokens := monitoredTokens bot; tradeHistory := tradeHistory bot;
     stats := stats bot |}.

(* monitorToken(token) *)
Definition monitorToken (bot : Bot) (token : Token) : Bot :=
  match monitoredTokens bot !! symbol token with
  | Some _ => bot
  | None =>
      set_monitoredTokens bot
        (<[symbol token :=
             {| mon_symbol := symbol token;
                monitorStartPrice := currentPrice token;
                highestPrice := currentPrice token;
                lowestPrice := currentPrice token |}]> (monitoredTokens bot))
  end.

(* the two extrema updates of updateMonitoring, on the monitored entry *)
Definition raise_highest (p : Qc) (m : Monitored) : Monitored :=
  if gtb p (highestPrice m)
  then {| mon_symbol := mon_symbol m; monitorStartPrice := monitorStartPrice m;
          highestPrice := p; lowestPrice := lowestPrice m |}
  else m.

Definition lower_lowest (p : Qc) (m : Monitored) : Monitored :=
  if ltb p (lowestPrice m)
  then {| mon_symbol := mon_symbol m; monitorStartPrice := monitorStartPrice m;
          highestPrice := highestPrice m; lowestPrice := p |}
  else m.

(* position.peakPrice = token.currentPrice when the price is higher *)
Definition raise_peak (p : Qc) (pos : Position) : Position :=
  if gtb p (peakPrice pos)
  then {| pos_symbol := pos_symbol pos; amount := amount pos;
          buyPrice := buyPrice pos; peakPrice := p; buyTime := buyTime pos |}
  else pos.

(* ((peak - current) / peak) * 100, on doubles *)
Definition dropFromPeak (peak current : Qc) : spec_float :=
  Float64.mul
    (Float64.div
       (Float64.sub (Float64.of_Qc peak) (Float64.of_Qc current))
       (Float64.of_Qc peak))
    (Float64.of_Qc (num 100)).

(* ((current - lowest) / lowest) * 100, on doubles *)
Definition increaseFromLowest (current lowest : Qc) : spec_float :=
  Float64.mul
    (Float64.div
       (Float64.sub (Float64.of_Qc current) (Float64.of_Qc lowest))
       (Float64.of_Qc lowest))
    (Float64.of_Qc (num 100)).

(* The body of tokens.forEach in updateMonitoring: the bot after the
   token was processed and the signals it pushed (none or one). *)
Definition tickToken (bot : Bot) (token : Token) : Bot * list Signal :=
  let bot1 := monitorToken bot token in
  match monitoredTokens bot1 !! symbol token with
  | None => (bot1, [])      (* not reached: monitorToken made the entry *)
  | Some monitored0 =>
      let monitored :=
        lower_lowest (currentPrice token)
          (raise_highest (currentPrice token) monitored0) in
      let bot2 :=
        set_monitoredTokens bot1
          (<[symbol token := monitored]> (monitoredTokens bot1)) in
      match positions bot2 !! symbol token with
      | Some position0 =>
          let position := raise_peak (currentPrice token) position0 in
          let bot3 :=
            set_positions bot2 (<[symbol token := position]> (positions bot2)) in
          let drop := dropFromPeak (peakPrice position) (currentPrice token) in
          if Float64.geb drop (Float64.of_Qc (sellThreshold (config bot3)))
          then (bot3, [ {| sig_type := Sell; sig_token := token;
                           sig_reason := PriceDropped drop (peakPrice position) |} ])
          else (bot3, [])
      | None =>
          let inc := increaseFromLowest (currentPrice token) (lowestPrice monitored) in
          if Float64.geb inc (Float64.of_Qc (buyThreshold (config bot2)))
             && ltb (positions_size bot2) (maxPositions (config bot2))
          then (bot2, [ {| sig_type := Buy; sig_token := token;
                           sig_reason := PriceIncreased inc |} ])
          else (bot2, [])
      end
  end.

(* updateMonitoring(tokens) *)
Fixpoint updateMonitoring_from (bot : Bot) (signals : list Signal)
    (tokens : list Token) : Bot * list Signal :=
  match tokens with
  | [] => (bot, signals)
  | token :: rest =>
      let '(bot', pushed) := tickToken bot token in
      updateMonitoring_from bot' (signals ++ pushed) rest
  end.

Definition updateMonitoring (bot : Bot) (tokens : list Token) : Bot * list Signal :=
  updateMonitoring_from bot [] tokens.

(* the reset of the monitored entry at the end of buy and sell *)
Definition reset_extrema (p : Qc) (m : Monitored) : Monitored :=
  {| mon_symbol := mon_symbol m; monitorStartPrice := monitorStartPrice m;
     highestPrice := p; lowestPrice := p |}.

Definition count_trade (st : Stats) : Stats :=
  {| totalTrades := S (totalTrades st); winningTrades := winningTrades st;
     losingTrades := losingTrades st |}.

Definition count_sale (pr : Qc) (st : Stats) : Stats :=
  if gtb pr 0
  then {| totalTrades := S (totalTrades st);
          winningTrades := S (winningTrades st);
          losingTrades := losingTrades st |}
  else {| totalTrades := S (totalTrades st);
          winningTrades := winningTrades st;
          losingTrades := S (losingTrades st) |}.

(* buy(token, reason); now is the clock read by Date.now() and new Date() *)
Definition buy (bot : Bot) (token : Token) (why : Reason) (now : Z)
    : Bot * BotResult :=
  if geb (positions_size bot) (maxPositions (config bot))
  then (bot, MaxPositionsReached)
  else
    let tradeAmount := balance bot * (tradeAmountPercent (config bot) / num 100) in
    if ltb (balance bot) tradeAmount
       || ltb tradeAmount (minTradeAmount (config bot))
    then (bot, InsufficientBalance)
    else
      let amt := tradeAmount / currentPrice token in
      let position :=
        {| pos_symbol := symbol token; amount := amt;
           buyPrice := currentPrice token; peakPrice := currentPrice token;
           buyTime := now |} in
      let trade :=
        {| id := now; type := Buy; trade_symbol := symbol token;
           price := currentPrice token; trade_amount := amt;
           total := tradeAmount; time := now; reason := why; sale := None |} in
      ({| config := config bot;
          balance := balance bot - tradeAmount;
          initialBalance := initialBalance bot;
          positions := <[symbol token := position]> (positions bot);
          monitoredTokens :=
            alter (reset_extrema (currentPrice token)) (symbol token)
              (monitoredTokens bot);
          tradeHistory := trade :: tradeHistory bot;
          stats := count_trade (stats bot) |},
       Done trade).

(* sell(token, reason) *)
Definition sell (bot : Bot) (token : Token) (why : Reason) (now : Z)
    : Bot * BotResult :=
  match positions bot !! symbol token with
  | None => (bot, NoPosition)
  | Some position =>
      let sellValue := amount position * currentPrice token in
      let prof := sellValue - amount position * buyPrice position in
      let profPercent := (prof / (amount position * buyPrice position)) * num 100 in
      let trade :=
        {| id := now; type := Sell; trade_symbol := symbol token;
           price := currentPrice token; trade_amount := amount position;
           total := sellValue; time := now; reason := why;
           sale := Some {| sale_buyPrice := buyPrice position;
                           sale_peakPrice := peakPrice position;
                           profit := prof; profitPercent := profPercent |} |} in
      ({| config := config bot;
          balance := balance bot + sellValue;
          initialBalance := initialBalance bot;
          positions := delete (symbol token) (positions bot);
          monitoredTokens :=
            alter (reset_extrema (currentPrice token)) (symbol token)
              (monitoredTokens bot);
          tradeHistory := trade :: tradeHistory bot;
          stats := count_sale prof (stats bot) |},
       Done trade)
  end.

(* reset() *)
Definition reset (bot : Bot) : Bot :=
  {| config := config bot;
     balance := cfg_initialBalance (config bot);
     initialBalance := cfg_initialBalance (config bot);
     positions := ∅;
     monitoredTokens := ∅;
     tradeHistory := [];
     stats := {| totalTrades := 0; winningTrades := 0; losingTrades := 0 |} |}.

(* A call on the ledger, and a sequence of calls run one after the other;
   the results are collected in call order. *)
Inductive LedgerCall :=
  | CallBuy (token : Token) (why : Reason) (now : Z)
  | CallSell (token : Token) (why : Reason) (now : Z).

Definition call (bot : Bot) (c : LedgerCall) : Bot * BotResult :=
  match c with
  | CallBuy token why now => buy bot token why now
  | CallSell token why now => sell bot token why now
  end.

End TradingBot.

(* --------------------------------------------------------------------- *)
(* OrderExecutor                                                          *)
(* --------------------------------------------------------------------- *)
(* executeBuy and executeSell are async: each runs without interruption
   up to `await this.bybitAPI.placeOrder(...)`, is suspended there, and is
   resumed when the exchange call settles.  The two halves are separate
   functions, so that other calls can be placed between them.  While a
   call is suspended the token object it holds is still updated by the
   price feed, so the resumed half takes the token as it is then. *)

Module OrderExecutor.
Import Num Config TradingBot.
Local Open Scope Qc_scope.

Record Executor := {
  tradingBot : Bot;
  executingOrders : gset string;
}.

(* the arguments of one call of bybitAPI.placeOrder(symbol, side, qty) *)
Record OrderRequest := {
  req_symbol : string;
  req_side : Side;
  req_qty : Qc;
}.

(* how the awaited exchange call settles *)
Inductive OrderOutcome :=
  | Filled (orderId : string)       (* { success: true, orderId } *)
  | Declined (error : string)       (* { success: false, error } *)
  | Threw (msg : string).           (* the promise rejects *)

(* the object an execute call returns, one constructor per return *)
Inductive Result :=
  | Executed (trade : Trade) (orderId : string)
  | AlreadyExecuting
  | BelowMinimum
  | NoPositionFound
  | BotRejected (r : BotResult)
  | OrderFailed (error : string)
  | Fault (msg : string).

Definition result_success (r : Result) : bool :=
  match r with Executed _ _ => true | _ => false end.

Definition result_message (r : Result) : option string :=
  match r with
  | Executed _ _ => None
  | AlreadyExecuting => Some "Order already executing"
  | BelowMinimum => Some "Trade amount below minimum"
  | NoPositionFound => Some "No position found"
  | BotRejected r => TradingBot.message r
  | OrderFailed error => Some ("Bybit order failed: " +:+ error)
  | Fault msg => Some msg
  end.

(* where a call stands when its first half is over *)
Inductive Started :=
  | Returned (r : Result)           (* returned before the exchange call *)
  | Awaiting (req : OrderRequest).  (* placeOrder called, call suspended *)

Definition new (bot : Bot) : Executor :=
  {| tradingBot := bot; executingOrders := ∅ |}.

(* this.executingOrders.add(symbol) *)
Definition mark (ex : Executor) (sym : string) : Executor :=
  {| tradingBot := tradingBot ex;
     executingOrders := {[ sym ]} ∪ executingOrders ex |}.

(* this.executingOrders.delete(symbol) *)
Definition unmark (ex : Executor) (sym : string) : Executor :=
  {| tradingBot := tradingBot ex;
     executingOrders := executingOrders ex ∖ {[ sym ]} |}.

Definition with_bot (ex : Executor) (bot : Bot) : Executor :=
  {| tradingBot := bot; executingOrders := executingOrders ex |}.

(* executeBuy, up to the await *)
Definition executeBuy_start (ex : Executor) (token : Token)
    : Executor * Started :=
  let sym := getFullSymbol (symbol token) in
  if decide (sym ∈ executingOrders ex) then (ex, Returned AlreadyExecuting)
  else
    let ex1 := mark ex sym in
    let tradeAmount :=
      balance (tradingBot ex1)
      * (tradeAmountPercent (config (tradingBot ex1)) / num 100) in
    if ltb tradeAmount (minTradeAmount (config (tradingBot ex1)))
    then (unmark ex1 sym, Returned BelowMinimum)
    else
      let quantity := toFixed4 (tradeAmount / currentPrice token) in
      (ex1, Awaiting {| req_symbol := sym; req_side := Buy;
                        req_qty := quantity |}).

(* executeBuy, from the await on; sym is the constant computed before *)
Definition executeBuy_resume (ex : Executor) (sym : string) (token : Token)
    (why : Reason) (now : Z) (outcome : OrderOutcome) : Executor * Result :=
  match outcome with
  | Filled orderId =>
      let '(bot', botResult) := buy (tradingBot ex) token why now in
      match botResult with
      | Done trade => (unmark (with_bot ex bot') sym, Executed trade orderId)
      | _ => (unmark (with_bot ex bot') sym, BotRejected botResult)
      end
  | Declined error => (unmark ex sym, OrderFailed error)
  | Threw msg => (unmark ex sym, Fault msg)
  end.

(* executeSell, up to the await *)
Definition executeSell_start (ex : Executor) (token : Token)
    : Executor * Started :=
  let sym := getFullSymbol (symbol token) in
  if decide (sym ∈ executingOrders ex) then (ex, Returned AlreadyExecuting)
  else
    let ex1 := mark ex sym in
    match positions (tradingBot ex1) !! symbol token with
    | None => (unmark ex1 sym, Returned NoPositionFound)
    | Some position =>
        let quantity := toFixed4 (amount position) in
        (ex1, Awaiting {| req_symbol := sym; req_side := Sell;
                          req_qty := quantity |})
    end.

(* executeSell, from the await on *)
Definition executeSell_resume (ex : Executor) (sym : string) (token : Token)
    (why : Reason) (now : Z) (outcome : OrderOutcome) : Executor * Result :=
  match outcome with
  | Filled orderId =>
      let '(bot', botResult) := sell (tradingBot ex) token why now in
      match botResult with
      | Done trade => (unmark (with_bot ex bot') sym, Executed trade orderId)
      | _ => (unmark (with_bot ex bot') sym, BotRejected botResult)
      end
  | Declined error => (unmark ex sym, OrderFailed error)
  | Threw msg => (unmark ex sym, Fault msg)
  end.

(* executeSignal(signal), in its two halves *)
Definition executeSignal_start (ex : Executor) (signal : Signal)
    : Executor * Started :=
  match sig_type signal with
  | Buy => executeBuy_start ex (sig_token signal)
  | Sell => executeSell_start ex (sig_token signal)
  end.

Definition executeSignal_resume (ex : Executor) (sym : string)
    (signal : Signal) (now : Z) (outcome : OrderOutcome) : Executor * Result :=
  match sig_type signal with
  | Buy => executeBuy_resume ex sym (sig_token signal) (sig_reason signal) now outcome
  | Sell => executeSell_resume ex sym (sig_token signal) (sig_reason signal) now outcome
  end.

(* the second half of a call, if it has one *)
Definition settle (ex : Executor) (signal : Signal) (st : Started) (now : Z)
    (exchange : OrderRequest → OrderOutcome) : Executor * Result :=
  match st with
  | Returned r => (ex, r)
  | Awaiting req =>
      executeSignal_resume ex (req_symbol req) signal now (exchange req)
  end.

(* One call awaited on its own: nothing runs between its two halves. *)
Definition executeSignal (ex : Executor) (signal : Signal) (now : Z)
    (exchange : OrderRequest → OrderOutcome) : Executor * Result :=
  let '(ex1, st) := executeSignal_start ex signal in
  settle ex1 signal st now exchange.

Definition executeBuy (ex : Executor) (token : Token) (why : Reason) (now : Z)
    (exchange : OrderRequest → OrderOutcome) : Executor * Result :=
  executeSignal ex {| sig_type := Buy; sig_token := token; sig_reason := why |}
    now exchange.

Definition executeSell (ex : Executor) (token : Token) (why : Reason) (now : Z)
    (exchange : OrderRequest → OrderOutcome) : Executor * Result :=
  executeSignal ex {| sig_type := Sell; sig_token := token; sig_reason := why |}
    now exchange.

(* Two calls issued one right after the other, neither awaited first:
   both first halves run, then the suspended calls are resumed in the
   order in which they were issued. *)
Definition race (ex : Executor) (s1 s2 : Signal) (now : Z)
    (exchange : OrderRequest → OrderOutcome) : Executor * Result * Result :=
  let '(ex1, st1) := executeSignal_start ex s1 in
  let '(ex2, st2) := executeSignal_start ex1 s2 in
  let '(ex3, r1) := settle ex2 s1 st1 now exchange in
  let '(ex4, r2) := settle ex3 s2 st2 now exchange in
  (ex4, r1, r2).

Definition is_AlreadyExecuting (r : Result) : bool :=
  match r with AlreadyExecuting => true | _ => false end.

End OrderExecutor.

(* --------------------------------------------------------------------- *)
(* MarketData                                                             *)
(* --------------------------------------------------------------------- *)

Module MarketData.
Import Num Config.
Local Open Scope Qc_scope.

(* an entry of this.monitoredTokens *)
Record TokenData := {
  symbol : string;
  fullSymbol : string;
  currentPrice : Qc;
  highestPrice : Qc;
  lowestPrice : Qc;
  change30m : Qc;
  lastUpdate : Z;
}.

(* an entry of this.topGainers *)
Record Gainer := {
  g_symbol : string;
  baseToken : string;
  g_currentPrice : Qc;
  g_change30m : Qc;
  volume24h : Qc;
}.

Record Tracker := {
  topGainers : list Gainer;
  staticTokens : list string;
  monitoredTokens : gmap string TokenData;
  prices : gmap string Qc;
  lastTopGainersUpdate : option Z;
}.

(* the writes to tokenData in updatePrice *)
Definition observe (price : Qc) (now : Z) (td : TokenData) : TokenData :=
  {| symbol := symbol td;
     fullSymbol := fullSymbol td;
     currentPrice := price;
     highestPrice := if gtb price (highestPrice td) then price else highestPrice td;
     lowestPrice := if ltb price (lowestPrice td) then price else lowestPrice td;
     change30m := change30m td;
     lastUpdate := now |}.

(* updatePrice(symbol, price); now is the clock read by new Date() *)
Definition updatePrice (md : Tracker) (sym : string) (price : Qc) (now : Z)
    : Tracker :=
  let base := getBaseToken sym in
  let prices' := <[sym := price]> (prices md) in
  {| topGainers := topGainers md;
     staticTokens := staticTokens md;
     monitoredTokens :=
       match monitoredTokens md !! base with
       | Some tokenData => <[base := observe price now tokenData]> (monitoredTokens md)
       | None => monitoredTokens md
       end;
     prices := prices';
     lastTopGainersUpdate := lastTopGainersUpdate md |}.

(* getPrice(symbol): this.prices.get(symbol) || 0 *)
Definition getPrice (md : Tracker) (sym : string) : Qc :=
  match prices md !! sym with
  | Some p => if is_zero p then 0 else p
  | None => 0
  end.

(* getTokenData(token) *)
Definition getTokenData (md : Tracker) (token : string) : option TokenData :=
  monitoredTokens md !! token.

(* resetTokenMonitoring(token) *)
Definition resetTokenMonitoring (md : Tracker) (token : string) : Tracker :=
  {| topGainers := topGainers md;
     staticTokens := staticTokens md;
     monitoredTokens :=
       alter (λ td, {| symbol := symbol td; fullSymbol := fullSymbol td;
                       currentPrice := currentPrice td;
                       highestPrice := currentPrice td;
                       lowestPrice := currentPrice td;
                       change30m := change30m td;
                       lastUpdate := lastUpdate td |})
             token (monitoredTokens md);
     prices := prices md;
     lastTopGainersUpdate := lastTopGainersUpdate md |}.

(* constructor(bybitAPI), before initialize() *)
Definition new (static : list string) : Tracker :=
  {| topGainers := []; staticTokens := static; monitoredTokens := ∅;
     prices := ∅; lastTopGainersUpdate := None |}.

(* the token object the bot reads out of a tracker entry *)
Definition as_token (td : TokenData) : TradingBot.Token :=
  {| TradingBot.symbol := symbol td; TradingBot.currentPrice := currentPrice td |}.

End MarketData.

(* --------------------------------------------------------------------- *)
(* The vocabulary of the properties                                       *)
(* --------------------------------------------------------------------- *)

Module Props.
Import Num TradingBot.
Local Open Scope Qc_scope.

(* the larger and the smaller of two prices *)
Definition qmax (a b : Qc) : Qc := if ltb a b then b else a.
Definition qmin (a b : Qc) : Qc := if ltb b a then b else a.

(* The low a flat symbol is measured against in a tick: the tracked
   lowestPrice extended by the price of the tick, or that price alone when
   the symbol is seen for the first time. *)
Definition tracked_low (bot : Bot) (token : Token) : Qc :=
  match monitoredTokens bot !! symbol token with
  | Some m => qmin (lowestPrice m) (currentPrice token)
  | None => currentPrice token
  end.

(* a signal of the given side for the token is among the signals *)
Definition emits (side : Side) (token : Token) (signals : list Signal) : Prop :=
  ∃ why, {| sig_type := side; sig_token := token; sig_reason := why |} ∈ signals.

(* same position, up to the peak *)
Definition same_holding (p q : Position) : Prop :=
  pos_symbol q = pos_symbol p ∧ amount q = amount p
  ∧ buyPrice q = buyPrice p ∧ buyTime q = buyTime p.

(* The same state at a symbol, as far as a tick of that symbol reads it. *)
Definition agree_at (sym : string) (b1 b2 : Bot) : Prop :=
  config b2 = config b1
  ∧ size (positions b2) = size (positions b1)
  ∧ positions b2 !! sym = positions b1 !! sym
  ∧ monitoredTokens b2 !! sym = monitoredTokens b1 !! sym.

(* the ledger after a sequence of calls *)
Definition run (bot : Bot) (calls : list LedgerCall) : Bot :=
  foldl (λ b c, (call b c).1) bot calls.

(* every call of the sequence succeeds, each from the state the calls
   before it have left *)
Fixpoint all_succeed (bot : Bot) (calls : list LedgerCall) : bool :=
  match calls with
  | [] => true
  | c :: rest => success (call bot c).2 && all_succeed (call bot c).1 rest
  end.


(* every open position has its peak at or above its entry price *)
Definition peaks_ok (bot : Bot) : Prop :=
  ∀ sym pos, positions bot !! sym = Some pos → buyPrice pos ≤ peakPrice pos.

(* the methods of the bot that write to it *)
Inductive BotCall :=
  | DoMonitor (token : Token)
  | DoUpdate (tokens : list Token)
  | DoBuy (token : Token) (why : Reason) (now : Z)
  | DoSell (token : Token) (why : Reason) (now : Z)
  | DoConfig (cfg : BotConfig)
  | DoReset.

Definition step (bot : Bot) (c : BotCall) : Bot :=
  match c with
  | DoMonitor token => monitorToken bot token
  | DoUpdate tokens => (updateMonitoring bot tokens).1
  | DoBuy token why now => (buy bot token why now).1
  | DoSell token why now => (sell bot token why now).1
  | DoConfig cfg => updateConfig bot cfg
  | DoReset => reset bot
  end.

(* the states a bot constructed with cfg can be in *)
Inductive reachable (cfg : BotConfig) : Bot → Prop :=
  | reach_new : reachable cfg (TradingBot.new cfg)
  | reach_step bot c : reachable cfg bot → reachable cfg (step bot c).

(* a sequence of ticks *)
Definition run_ticks (bot : Bot) (ticks : list (list Token)) : Bot :=
  foldl (λ b tokens, (updateMonitoring b tokens).1) bot ticks.

(* how ticks over the given tokens may change a held position of sym *)
Definition raised_by (tokens : list Token) (sym : string) (pos pos' : Position)
    : Prop :=
  same_holding pos pos'
  ∧ peakPrice pos ≤ peakPrice pos'
  ∧ (peakPrice pos' = peakPrice pos
     ∨ ∃ t, t ∈ tokens ∧ symbol t = sym
            ∧ currentPrice t = peakPrice pos'
            ∧ peakPrice pos < currentPrice t).

(* the running example: one symbol, the default configuration *)
Definition btc (p : Qc) : Token := {| symbol := "BTC"; currentPrice := p |}.

(* the bot after a first tick that saw BTC at 100 *)
Definition bot_low_100 : Bot :=
  (updateMonitoring (TradingBot.new defaultConfig) [btc (num 100)]).1.

(* the bot holding 25 BTC bought at 102 *)
Definition bot_holding : Bot :=
  set_positions (TradingBot.new defaultConfig)
    {[ "BTC" := {| pos_symbol := "BTC"; amount := num 25; buyPrice := num 102;
                   peakPrice := num 102; buyTime := 0 |} ]}.

(* the bot after BTC was seen at 100, then bought at 102 *)
Definition bot_bought : Bot :=
  step (step (TradingBot.new defaultConfig) (DoUpdate [btc (num 100)]))
       (DoBuy (btc (num 102)) (ReasonText "rise") 1).

(* the tick that sees BTC at 102 after the low of 100 *)
Definition scenario_tick : Bot * list Signal :=
  updateMonitoring bot_low_100 [btc (num 102)].

(* the exchange-facing symbol of the call a signal stands for *)
Definition order_symbol (signal : Signal) : string :=
  Config.getFullSymbol (symbol (sig_token signal)).

(* of two results exactly one is not the in-flight rejection *)
Definition exactly_one_proceeds (r1 r2 : OrderExecutor.Result) : Prop :=
  xorb (OrderExecutor.is_AlreadyExecuting r1)
       (OrderExecutor.is_AlreadyExecuting r2) = true.

(* a bot whose balance, 2, is too small for a trade of at least 1 *)
Definition bot_poor : Bot :=
  TradingBot.new
    {| cfg_initialBalance := num 2; buyThreshold := num 2;
       sellThreshold := num 3; tradeAmountPercent := num 25;
       minTradeAmount := num 1; maxPositions := num 4 |}.

Definition buy_btc : Signal :=
  {| sig_type := Buy; sig_token := btc (num 102);
     sig_reason := PriceIncreased (Float64.of_Qc (num 2)) |}.



(* a buy at the price -1, then a sell at the price 5 *)
Definition calls_negative_price : list LedgerCall :=
  [ CallBuy (btc (num (-1))) (ReasonText "rise") 1;
    CallSell (btc (num 5)) (ReasonText "drop") 2 ].

(* the doubles written 0.1, 1.95 and 1.8915, by their exact values *)
Definition double_0_1 : Qc := dec 3602879701896397 36028797018963968.
Definition double_1_95 : Qc := dec 8782019273372467 4503599627370496.
Definition double_1_8915 : Qc := dec 8518558695171293 4503599627370496.

(* the default bot after a first tick that saw BTC at 10 *)
Definition bot_low_10 : Bot :=
  (updateMonitoring (TradingBot.new defaultConfig) [btc (num 10)]).1.

(* a bot with a buy threshold of 0.1 (percent) that has seen BTC at 125 *)
Definition bot_low_125 : Bot :=
  (updateMonitoring
     (TradingBot.new
        {| cfg_initialBalance := num 10000; buyThreshold := double_0_1;
           sellThreshold := num 3; tradeAmountPercent := num 25;
           minTradeAmount := num 1; maxPositions := num 4 |})
     [btc (num 125)]).1.

(* the default bot holding BTC with a peak of 1.95 *)
Definition bot_peak_1_95 : Bot :=
  set_positions (TradingBot.new defaultConfig)
    {[ "BTC" := {| pos_symbol := "BTC"; amount := num 1000;
                   buyPrice := double_1_95; peakPrice := double_1_95;
                   buyTime := 0 |} ]}.

(* The quotient of two doubles that stand in the exact ratio a / b, as
   the division rounds it: the integer quotient of a * 2^t by b at the
   exponent -t, and the place of the remainder against one half. *)
Definition ratio_loc (a b t : Z) : location :=
  let r := ((a * 2 ^ t) mod b)%Z in
  if (r =? 0)%Z then loc_Exact else loc_Inexact (2 * r ?= b)%Z.

Definition ratio_float (a b t : Z) : spec_float :=
  binary_round_aux Float64.prec Float64.emax false ((a * 2 ^ t) / b)%Z (- t)%Z
    (ratio_loc a b t).

End Props.

(* --------------------------------------------------------------------- *)
(* Strings: occurrences and first-occurrence replacement                  *)
(* --------------------------------------------------------------------- *)

Section StringFacts.
Import Config.
Local Arguments String.append !_ _ / : simpl nomatch.

Lemma str_app_nil_r (s : string) : s +:+ "" = s.
Proof. induction s as [|c s IH]; simpl; [done | by rewrite IH]. Qed.

Lemma str_app_assoc (a b c : string) : (a +:+ b) +:+ c = a +:+ (b +:+ c).
Proof. induction a as [|x a IH]; simpl; [done | by rewrite IH]. Qed.


Lemma prefix_app (p r : string) : starts_with p (p +:+ r) = true.
Proof.
  induction p as [|c p IH]; simpl; [done|].
  by rewrite Ascii.eqb_refl, IH.
Qed.

Lemma prefix_split (p s : string) :
  starts_with p s = true → ∃ r, s = p +:+ r.
Proof.
  revert s. induction p as [|c p IH]; intros s H; simpl in *.
  - by exists s.
  - destruct s as [|d s]; [done|].
    apply andb_prop in H as [Hc H]. apply Ascii.eqb_eq in Hc as ->.
    destruct (IH _ H) as [r ->]. by exists r.
Qed.

Lemma str_drop_app (p r : string) : str_drop (String.length p) (p +:+ r) = r.
Proof. induction p as [|c p IH]; simpl; [by destruct r | apply IH]. Qed.

Lemma index_of_cons (pat : string) (c : Ascii.ascii) (s : string) :
  index_of pat (String c s)
  = if starts_with pat (String c s) then Some O else S <$> index_of pat s.
Proof. reflexivity. Qed.

Lemma index_of_head (pat s : string) :
  starts_with pat s = true → index_of pat s = Some O.
Proof. intros H. destruct s; simpl; by rewrite H. Qed.

Lemma replace_first_head (pat rep s : string) :
  starts_with pat s = true →
  replace_first pat rep s = rep +:+ str_drop (String.length pat) s.
Proof. intros H. destruct s; simpl; by rewrite H. Qed.

Lemma index_of_contains (pat s : string) (i : nat) :
  index_of pat s = Some i → contains pat s.
Proof.
  revert i. induction s as [|c s IH]; intros i; simpl.
  - destruct (starts_with pat "") eqn:E; [|done].
    intros _. destruct (prefix_split _ _ E) as [r Hr].
    exists "", r. exact Hr.
  - destruct (starts_with pat (String c s)) eqn:E.
    + intros _. destruct (prefix_split _ _ E) as [r Hr].
      exists "", r. exact Hr.
    + destruct (index_of pat s) as [j|] eqn:Ej; [|done].
      intros _. destruct (IH j eq_refl) as (a & b & ->).
      by exists (String c a), b.
Qed.

Lemma contains_index_of (pat s : string) :
  contains pat s → is_Some (index_of pat s).
Proof.
  intros (a & b & ->). induction a as [|c a IH]; simpl.
  - rewrite index_of_head by apply prefix_app. by eexists.
  - destruct (starts_with pat _); [by eexists|].
    destruct IH as [j ->]. by eexists.
Qed.

Lemma index_of_None (pat s : string) :
  index_of pat s = None ↔ ¬ contains pat s.
Proof.
  split.
  - intros HN Hc. apply contains_index_of in Hc as [j Hj]. congruence.
  - intros Hn. destruct (index_of pat s) as [j|] eqn:E; [|done].
    destruct Hn. by eapply index_of_contains.
Qed.

(* replace at the decomposition given by the first occurrence *)
Lemma replace_first_at (pat rep a b : string) :
  index_of pat (a +:+ pat +:+ b) = Some (String.length a) →
  replace_first pat rep (a +:+ pat +:+ b) = a +:+ rep +:+ b.
Proof.
  induction a as [|c a IH]; simpl.
  - intros _. rewrite replace_first_head by apply prefix_app.
    by rewrite str_drop_app.
  - destruct (starts_with pat _); [done|].
    destruct (index_of pat (a +:+ pat +:+ b)) as [j|] eqn:E; [|done].
    simpl. intros [= ->]. by rewrite IH.
Qed.

Lemma replace_first_absent (pat rep s : string) :
  index_of pat s = None → replace_first pat rep s = s.
Proof.
  induction s as [|c s IH]; simpl.
  - by destruct (starts_with pat "").
  - destruct (starts_with pat (String c s)); [done|].
    destruct (index_of pat s); [done|]. intros _. by rewrite IH.
Qed.

(* "USDT" has no border: appending it to a non-empty string does not
   create an occurrence at the head of the string. *)
Lemma prefix_quote_app (t : string) :
  t ≠ "" →
  starts_with QUOTE_CURRENCY (t +:+ QUOTE_CURRENCY)
  = starts_with QUOTE_CURRENCY t.
Proof.
  intros Hne. unfold QUOTE_CURRENCY.
  destruct t as [|c1 [|c2 [|c3 [|c4 t]]]]; [done|..]; simpl;
    repeat match goal with
           | |- context [Ascii.eqb ?x ?y] =>
               destruct (Ascii.eqb_spec x y); try discriminate; subst; simpl
           end; done.
Qed.

Lemma index_of_full (t : string) :
  index_of QUOTE_CURRENCY (getFullSymbol t)
  = match index_of QUOTE_CURRENCY t with
    | Some i => Some i
    | None => Some (String.length t)
    end.
Proof.
  unfold getFullSymbol. induction t as [|c t IH].
  - reflexivity.
  - rewrite (index_of_cons _ c t).
    change (String c t +:+ QUOTE_CURRENCY)
      with (String c (t +:+ QUOTE_CURRENCY)).
    rewrite index_of_cons.
    change (String c (t +:+ QUOTE_CURRENCY))
      with (String c t +:+ QUOTE_CURRENCY).
    rewrite prefix_quote_app by done.
    destruct (starts_with QUOTE_CURRENCY (String c t)); [done|].
    rewrite IH. by destruct (index_of QUOTE_CURRENCY t).
Qed.

End StringFacts.

(* --------------------------------------------------------------------- *)
(* Numbers: the boolean comparisons and the order on Qc                   *)
(* --------------------------------------------------------------------- *)

Section NumFacts.
Import Num.
Local Open Scope Qc_scope.

Lemma leb_le (a b : Qc) : leb a b = true ↔ a ≤ b.
Proof. unfold leb, Qcle. apply Qle_bool_iff. Qed.

Lemma leb_gt (a b : Qc) : leb a b = false ↔ b < a.
Proof.
  rewrite <- not_true_iff_false, leb_le. split.
  - apply Qcnot_le_lt.
  - intros H Hle. by apply (Qclt_not_le _ _ H).
Qed.

Lemma ltb_lt (a b : Qc) : ltb a b = true ↔ a < b.
Proof. unfold ltb. rewrite negb_true_iff. apply leb_gt. Qed.

Lemma ltb_ge (a b : Qc) : ltb a b = false ↔ b ≤ a.
Proof. unfold ltb. rewrite negb_false_iff. apply leb_le. Qed.

Lemma geb_le (a b : Qc) : geb a b = true ↔ b ≤ a.
Proof. apply leb_le. Qed.

Lemma gtb_lt (a b : Qc) : gtb a b = true ↔ b < a.
Proof. apply ltb_lt. Qed.


End NumFacts.

(* --------------------------------------------------------------------- *)
(* Doubles: canonical form, exact differences, quotients of exact ratios  *)
(* --------------------------------------------------------------------- *)

Section FloatFacts.
Import Num TradingBot Props.

Local Abbreviation fexp := (SpecFloat.fexp Float64.prec Float64.emax).
Local Abbreviation digits p := (Zpos (digits2_pos p)).
Local Open Scope Z_scope.

Lemma fexp_eq (e : Z) : fexp e = Z.max (e - 53) (-1074).
Proof. reflexivity. Qed.

Lemma fexp_mono (x y : Z) : x ≤ y → fexp x ≤ fexp y.
Proof. rewrite !fexp_eq. lia. Qed.

Lemma digits2_pos_size (p : positive) : digits2_pos p = Pos.size p.
Proof. induction p as [p IH|p IH|]; cbn; by rewrite ?IH. Qed.

(* 2^(digits p - 1) <= p < 2^(digits p) *)
Lemma digits_bounds (p : positive) :
  2 ^ (digits p - 1) ≤ Zpos p < 2 ^ digits p.
Proof.
  rewrite digits2_pos_size.
  pose proof (Pos.size_gt p) as Hgt. pose proof (Pos.size_le p) as Hle.
  apply Pos2Z.pos_lt_pos in Hgt. apply Pos2Z.pos_le_pos in Hle.
  rewrite Pos2Z.inj_pow in Hgt, Hle.
  assert (2 ^ Zpos (Pos.size p) = 2 * 2 ^ (Zpos (Pos.size p) - 1)) as Hp.
  { rewrite <- Z.pow_succ_r by lia. f_equal. lia. }
  change (Z.pos p~0) with (2 * Z.pos p) in Hle. lia.
Qed.

(* comparing magnitudes gives the order of the digit positions *)
Lemma digits_le (a b : positive) (u v : Z) :
  0 ≤ u → 0 ≤ v →
  Zpos a * 2 ^ u ≤ Zpos b * 2 ^ v → digits a + u ≤ digits b + v.
Proof.
  intros Hu Hv H.
  destruct (digits_bounds a) as [Ha _]. destruct (digits_bounds b) as [_ Hb].
  assert (2 ^ (digits a - 1 + u) < 2 ^ (digits b + v)) as Hlt.
  { rewrite !Z.pow_add_r by lia.
    apply Z.le_lt_trans with (Zpos a * 2 ^ u).
    - apply Z.mul_le_mono_nonneg_r; [apply Z.pow_nonneg; lia | done].
    - apply Z.le_lt_trans with (Zpos b * 2 ^ v); [done|].
      apply Z.mul_lt_mono_pos_r; [apply Z.pow_pos_nonneg; lia | done]. }
  apply Z.pow_lt_mono_r_iff in Hlt; lia.
Qed.

Lemma digits_iter_xO (m d : positive) :
  digits (Pos.iter xO m d) = digits m + Zpos d.
Proof.
  induction d as [|d IH] using Pos.peano_ind.
  - cbn. lia.
  - rewrite Pos.iter_succ. cbn [digits2_pos]. rewrite Pos2Z.inj_succ, IH. lia.
Qed.

Lemma Zpos_iter_xO (m d : positive) :
  Zpos (Pos.iter xO m d) = Zpos m * 2 ^ Zpos d.
Proof.
  induction d as [|d IH] using Pos.peano_ind.
  - cbn. lia.
  - rewrite Pos.iter_succ, Pos2Z.inj_xO, IH, Pos2Z.inj_succ, Z.pow_succ_r by lia.
    lia.
Qed.

(* shl_align to a smaller exponent multiplies the mantissa *)
Lemma shl_align_le (m : positive) (e e' : Z) :
  e' ≤ e →
  Zpos (shl_align m e e').1 = Zpos m * 2 ^ (e - e')
  ∧ digits (shl_align m e e').1 = digits m + (e - e')
  ∧ (shl_align m e e').2 = e'.
Proof.
  intros Hle. unfold shl_align.
  destruct (e' - e) as [|d|d] eqn:Hd; cbn [fst snd]; try lia.
  - assert (e - e' = 0) as -> by lia. rewrite Z.mul_1_r. lia.
  - assert (e - e' = Zpos d) as -> by lia.
    by rewrite Zpos_iter_xO, digits_iter_xO.
Qed.

(* a mantissa at its canonical exponent is not rounded *)
Lemma binary_round_aux_exact (m : positive) (e : Z) :
  fexp (digits m + e) = e → e ≤ 971 →
  binary_round_aux Float64.prec Float64.emax false (Zpos m) e loc_Exact
  = S754_finite false m e.
Proof.
  intros Hc He. unfold binary_round_aux, shr_fexp. cbn [Zdigits2].
  rewrite Hc, Z.sub_diag. cbn [shr shr_record_of_loc shr_m loc_of_shr_record
                                round_nearest_even Zdigits2].
  rewrite Hc, Z.sub_diag. cbn [shr shr_record_of_loc shr_m].
  assert ((e <=? Float64.emax - Float64.prec) = true) as ->; [|done].
  apply Z.leb_le. unfold Float64.emax, Float64.prec. lia.
Qed.

Lemma bounded_spec (m : positive) (e : Z) :
  bounded Float64.prec Float64.emax m e = true →
  fexp (digits m + e) = e ∧ e ≤ 971.
Proof.
  unfold bounded, canonical_mantissa.
  intros [H1 H2]%andb_prop. apply Z.eqb_eq in H1. apply Z.leb_le in H2.
  split; [done|]. unfold Float64.emax, Float64.prec in H2. lia.
Qed.

(* The difference of two doubles is computed without rounding when it
   is a fraction a/b of the smaller one. *)
Lemma sub_exact (mc ml : positive) (ec el a b : Z) :
  bounded Float64.prec Float64.emax mc ec = true →
  bounded Float64.prec Float64.emax ml el = true →
  0 < a < b →
  b * (Zpos mc * 2 ^ (ec - Z.min ec el) - Zpos ml * 2 ^ (el - Z.min ec el))
  = a * (Zpos ml * 2 ^ (el - Z.min ec el)) →
  ∃ mz f,
    Float64.sub (S754_finite false mc ec) (S754_finite false ml el)
    = S754_finite false mz f
    ∧ f ≤ el
    ∧ fexp (digits mz + f) = f
    ∧ b * Zpos mz = a * Zpos ml * 2 ^ (el - f).
Proof.
  intros [Hcc Hce]%bounded_spec [Hlc Hle]%bounded_spec Hab Hrel.
  assert (el ≤ ec) as Hee.
  { destruct (Z.le_gt_cases el ec) as [|Hgt]; [done|].
    rewrite Z.min_l in Hrel by lia. rewrite Z.sub_diag, Z.mul_1_r in Hrel.
    assert (0 < 2 ^ (el - ec)) by (apply Z.pow_pos_nonneg; lia).
    assert (Zpos ml * 2 ^ (el - ec) ≤ Zpos mc * 2 ^ 0) as Hm by nia.
    apply digits_le in Hm; [|lia..].
    pose proof (fexp_mono (digits ml + el) (digits mc + ec)). lia. }
  rewrite Z.min_r in Hrel by lia. rewrite Z.sub_diag, Z.mul_1_r in Hrel.
  unfold Float64.sub, SFsub. rewrite Z.min_r by lia.
  destruct (shl_align_le mc ec el Hee) as (-> & _ & _).
  destruct (shl_align_le ml el el (Z.le_refl _)) as (-> & _ & _).
  rewrite Z.sub_diag, Z.mul_1_r. cbn [cond_Zopp].
  set (D := Zpos mc * 2 ^ (ec - el) - Zpos ml) in *.
  assert (0 < D < Zpos ml) as HD by nia.
  destruct D as [|pD|pD] eqn:HDeq; [lia| |lia].
  cbn [binary_normalize]. unfold binary_round.
  set (f := fexp (digits pD + el)).
  assert (f ≤ el) as Hf.
  { unfold f. rewrite <- Hlc at 2. apply fexp_mono.
    assert (Zpos pD * 2 ^ 0 ≤ Zpos ml * 2 ^ 0) as Hm by lia.
    apply digits_le in Hm; lia. }
  destruct (shl_align_le pD el f Hf) as (Hmz & Hdz & Hez).
  destruct (shl_align pD el f) as [mz ez]. cbn [fst snd] in *. subst ez.
  exists mz, f.
  assert (fexp (digits mz + f) = f) as Hcz.
  { rewrite Hdz. unfold f. f_equal. lia. }
  split; [apply binary_round_aux_exact; [done | lia]|].
  split; [done|]. split; [done|].
  rewrite Hmz. nia.
Qed.


Lemma new_location_ratio (ml r a b R : Z) :
  0 < ml → 0 < b → 0 ≤ R → b * r = R * ml →
  new_location ml r
  = if R =? 0 then loc_Exact else loc_Inexact (2 * R ?= b).
Proof.
  intros Hml Hb HR Hr.
  assert (r = 0 ↔ R = 0) as H0 by nia.
  assert ((2 * r ?= ml) = (2 * R ?= b)) as Hcmp.
  { destruct (Z.compare_spec (2 * R) b) as [E|E|E].
    - apply Z.compare_eq_iff. nia.
    - apply Z.compare_lt_iff. nia.
    - apply Z.compare_gt_iff. nia. }
  unfold new_location.
  destruct (Z.eqb_spec R 0) as [HR0|HR0].
  - assert (r = 0) as -> by tauto. by destruct (Z.even ml).
  - assert (r ≠ 0) as Hr0 by tauto.
    destruct (Z.even ml) eqn:Hev.
    + unfold new_location_even.
      assert ((r =? 0) = false) as -> by by apply Z.eqb_neq.
      by rewrite Hcmp.
    + unfold new_location_odd.
      assert ((r =? 0) = false) as -> by by apply Z.eqb_neq.
      rewrite <- Hcmp.
      assert (2 * r ≠ ml) as Hne.
      { intros Heq. rewrite <- Heq, Z.even_mul in Hev. done. }
      destruct (Z.compare_spec (2 * r) ml) as [E|E|E]; [done| |].
      * by destruct (Z.compare_spec (2 * r + 1) ml) as [E'|E'|E']; [..|lia].
      * destruct (Z.compare_spec (2 * r + 1) ml) as [E'|E'|E']; [lia..|done].
Qed.

(* The quotient of two doubles in the exact ratio a / b, between 1/64
   and 1/32, does not depend on the doubles. *)
Lemma div_ratio (mz ml : positive) (f el a b : Z) :
  fexp (digits mz + f) = f →
  fexp (digits ml + el) = el →
  f ≤ el →
  0 < a → 32 * a < b < 64 * a →
  b * Zpos mz = a * Zpos ml * 2 ^ (el - f) →
  ∃ t, (t = 58 ∨ t = 59)
       ∧ Float64.div (S754_finite false mz f) (S754_finite false ml el)
         = ratio_float a b t.
Proof.
  intros Hcz Hcl Hf Ha Hab Hrel.
  assert (0 < 2 ^ (el - f)) as Hpow by (apply Z.pow_pos_nonneg; lia).
  assert (digits mz + 5 ≤ digits ml + (el - f)) as Hd1.
  { apply digits_le; [lia..|]. change (2 ^ 5) with 32. nia. }
  assert (digits ml + (el - f) ≤ digits mz + 6) as Hd2.
  { apply digits_le; [lia..|]. change (2 ^ 6) with 64. nia. }
  assert (digits mz ≤ 53) as Hdz by (rewrite fexp_eq in Hcz; lia).
  assert (1 ≤ digits ml) as Hdl by lia.
  set (δ := digits mz + f - (digits ml + el)).
  set (t := 53 - δ).
  assert (t = 58 ∨ t = 59) as Ht by lia.
  exists t. split; [done|].
  unfold Float64.div, SFdiv, SFdiv_core_binary. cbn [Zdigits2 xorb].
  fold δ.
  assert (fexp δ = - t) as -> by (rewrite fexp_eq; lia).
  rewrite Z.min_l by lia.
  set (s := f - el - - t).
  assert (0 ≤ s) as Hs by lia.
  set (m' := match s with
             | 0 => Z.pos mz
             | Z.pos _ => Z.shiftl (Z.pos mz) s
             | Z.neg _ => 0
             end).
  assert (m' = Zpos mz * 2 ^ s) as Hm'.
  { unfold m'. destruct s as [|ps|ps] eqn:Hse; [lia| |lia].
    by rewrite Z.shiftl_mul_pow2. }
  assert (b * m' = a * 2 ^ t * Zpos ml) as Hbm.
  { rewrite Hm'. replace t with ((el - f) + s) by lia.
    rewrite Z.pow_add_r by lia. nia. }
  set (Q := (a * 2 ^ t) / b). set (R := (a * 2 ^ t) mod b).
  assert (a * 2 ^ t = b * Q + R) as Hdiv by (apply Z.div_mod; lia).
  assert (0 ≤ R < b) as HR by (apply Z.mod_pos_bound; lia).
  set (r := m' - Q * Zpos ml).
  assert (b * r = R * Zpos ml) as Hbr by (unfold r; nia).
  assert (0 ≤ r < Zpos ml) as Hr by nia.
  assert (Z.div_eucl m' (Zpos ml) = (Q, r)) as ->.
  { pose proof (Z.div_eucl_eq m' (Zpos ml) ltac:(lia)) as He.
    pose proof (Z.mod_pos_bound m' (Zpos ml) ltac:(lia)) as Hb.
    unfold Z.modulo in Hb.
    destruct (Z.div_eucl m' (Zpos ml)) as [q0 r0]. cbn [snd] in Hb.
    assert (q0 = Q ∧ r0 = r) as [-> ->]; [|done].
    apply (Z.div_mod_unique (Zpos ml)); [lia | lia |].
    rewrite <- He. unfold r. lia. }
  unfold ratio_float, ratio_loc. fold Q R.
  by rewrite (new_location_ratio (Zpos ml) r a b R) by lia.
Qed.


(* Rounding keeps a mantissa that is not negative that way, so the
   rounded quotient of two positive integers is never NaN. *)
Lemma shr_1_nonneg (mrs : shr_record) :
  (0 ≤ shr_m mrs)%Z → (0 ≤ shr_m (shr_1 mrs))%Z.
Proof. destruct mrs as [[|[p|p|]|p] r t]; cbn; lia. Qed.

Lemma iter_pos_nonneg (n : positive) (mrs : shr_record) :
  (0 ≤ shr_m mrs)%Z → (0 ≤ shr_m (SpecFloat.iter_pos shr_1 n mrs))%Z.
Proof.
  revert mrs. induction n as [n IH|n IH|]; intros mrs H; cbn.
  - by apply IH, IH, shr_1_nonneg.
  - by apply IH, IH.
  - by apply shr_1_nonneg.
Qed.

Lemma shr_fexp_nonneg (m e : Z) (l : location) :
  (0 ≤ m)%Z →
  (0 ≤ shr_m (shr_fexp Float64.prec Float64.emax m e l).1)%Z.
Proof.
  intros H. unfold shr_fexp, shr.
  assert (0 ≤ shr_m (shr_record_of_loc m l))%Z as H0
    by (by destruct l as [|[]]).
  destruct (_ - e)%Z; cbn [fst]; [done| |done].
  by apply iter_pos_nonneg.
Qed.

Lemma binary_round_aux_not_nan (sx : bool) (m e : Z) (l : location) :
  (0 ≤ m)%Z →
  binary_round_aux Float64.prec Float64.emax sx m e l ≠ S754_nan.
Proof.
  intros H. unfold binary_round_aux.
  pose proof (shr_fexp_nonneg m e l H) as H1.
  destruct (shr_fexp _ _ m e l) as [mrs1 e1]. cbn [fst] in H1.
  set (m2 := round_nearest_even _ _).
  assert (0 ≤ m2)%Z as H2.
  { unfold m2, round_nearest_even.
    destruct (loc_of_shr_record mrs1) as [|[]]; try done; [|lia].
    destruct (Z.even _); lia. }
  pose proof (shr_fexp_nonneg m2 e1 loc_Exact H2) as H3.
  destruct (shr_fexp _ _ m2 e1 loc_Exact) as [mrs2 e2]. cbn [fst] in H3.
  destruct (shr_m mrs2); [done| |lia].
  by destruct (_ <=? _)%Z.
Qed.

Lemma of_Qc_not_nan (q : Qc) : Float64.of_Qc q ≠ S754_nan.
Proof.
  assert (∀ s n d,
            SFdiv Float64.prec Float64.emax (S754_finite s n 0)
              (S754_finite false d 0) ≠ S754_nan) as Hdiv.
  { intros s n d. unfold SFdiv, SFdiv_core_binary.
    set (m' := match _ with Z0 => _ | Zpos _ => _ | Zneg _ => _ end).
    assert (0 ≤ m')%Z as Hm'.
    { unfold m'. destruct (_ - _ - _)%Z; [done| |done].
      by apply Z.shiftl_nonneg. }
    pose proof (Z.div_pos m' (Zpos d) Hm' eq_refl) as Hq.
    unfold Z.div in Hq.
    destruct (Z.div_eucl m' (Zpos d)) as [qt r]. cbn [fst] in Hq.
    by apply binary_round_aux_not_nan. }
  unfold Float64.of_Qc. destruct (Qnum q); [done|apply Hdiv..].
Qed.

(* +Infinity is at or above every threshold *)
Lemma geb_infinity (q : Qc) :
  Float64.geb (S754_infinity false) (Float64.of_Qc q) = true.
Proof.
  pose proof (of_Qc_not_nan q) as H. unfold Float64.geb, SFleb.
  by destruct (Float64.of_Qc q) as [?|[]| |[] ? ?].
Qed.

(* the digits of a number that is not negative *)
Lemma Zdigits2_log2 (m : Z) : 0 < m → Zdigits2 m = Z.log2 m + 1.
Proof.
  destruct m as [|p|p]; [lia| |lia]. intros _. cbn [Zdigits2].
  apply Z.le_antisymm.
  - destruct (digits_bounds p) as [H _].
    apply Z.log2_le_pow2 in H; lia.
  - destruct (digits_bounds p) as [_ H].
    apply Z.log2_lt_pow2 in H; lia.
Qed.

Lemma Zdigits2_nonneg (m : Z) : 0 ≤ Zdigits2 m.
Proof. destruct m; cbn; lia. Qed.

Lemma Zdigits2_mono (a b : Z) : 0 ≤ a ≤ b → Zdigits2 a ≤ Zdigits2 b.
Proof.
  intros [Ha Hab]. destruct (Z.eq_dec a 0) as [->|Hne].
  - apply Zdigits2_nonneg.
  - rewrite !Zdigits2_log2 by lia.
    pose proof (Z.log2_le_mono a b Hab). lia.
Qed.

Lemma Zdigits2_shiftr (m n : Z) :
  0 ≤ n → 0 < Z.shiftr m n → Zdigits2 (Z.shiftr m n) = Zdigits2 m - n.
Proof.
  intros Hn Hpos.
  assert (0 < m) as Hm.
  { destruct (Z.le_gt_cases m 0) as [Hle|]; [|done].
    pose proof (proj2 (Z.shiftr_nonneg m n)).
    destruct (Z.eq_dec m 0) as [->|]; [by rewrite Z.shiftr_0_l in Hpos|].
    assert (m < 0) as Hneg by lia.
    apply (Z.shiftr_neg m n) in Hneg. lia. }
  rewrite !Zdigits2_log2 by done.
  rewrite Z.log2_shiftr by done.
  destruct (Z.le_gt_cases n (Z.log2 m)) as [|Hlt]; [lia|].
  assert (Z.shiftr m n = 0); [|lia].
  apply Z.shiftr_eq_0; lia.
Qed.

(* shifting a rounding record to the right *)
Lemma shr_1_m (mrs : shr_record) :
  0 ≤ shr_m mrs → shr_m (shr_1 mrs) = Z.div2 (shr_m mrs).
Proof. destruct mrs as [[|[p|p|]|p] r t]; cbn; lia || done. Qed.

Lemma iter_shr_1_m (n : positive) (mrs : shr_record) :
  0 ≤ shr_m mrs →
  shr_m (SpecFloat.iter_pos shr_1 n mrs) = Z.shiftr (shr_m mrs) (Zpos n).
Proof.
  revert mrs. induction n as [n IH|n IH|]; intros mrs H; cbn [SpecFloat.iter_pos].
  - rewrite IH, IH, shr_1_m by (try apply iter_pos_nonneg; by try apply shr_1_nonneg).
    rewrite Z.div2_spec, !Z.shiftr_shiftr by lia. f_equal. lia.
  - rewrite IH, IH by (try apply iter_pos_nonneg; done).
    rewrite !Z.shiftr_shiftr by lia. f_equal. lia.
  - rewrite shr_1_m by done. apply Z.div2_spec.
Qed.


Lemma shr_record_of_loc_m (m : Z) (l : location) :
  shr_m (shr_record_of_loc m l) = m.
Proof. by destruct l as [|[]]. Qed.

(* the first step of rounding: the mantissa is cut down to the digits
   its exponent leaves room for *)
Lemma shr_fexp_spec (m e : Z) (l : location) :
  0 ≤ m → e ≤ fexp (Zdigits2 m + e) →
  shr_m (shr_fexp Float64.prec Float64.emax m e l).1
  = Z.shiftr m (fexp (Zdigits2 m + e) - e)
  ∧ (shr_fexp Float64.prec Float64.emax m e l).2 = fexp (Zdigits2 m + e).
Proof.
  intros Hm He. unfold shr_fexp, shr.
  destruct (fexp (Zdigits2 m + e) - e) as [|n|n] eqn:Hn; cbn [fst snd]; [|  |lia].
  - rewrite shr_record_of_loc_m, Z.shiftr_0_r. lia.
  - rewrite iter_shr_1_m, shr_record_of_loc_m by by rewrite shr_record_of_loc_m.
    lia.
Qed.

(* what rounding returns is a double in canonical form *)
Lemma binary_round_aux_valid (sx : bool) (mx ex : Z) (lx : location) :
  0 ≤ mx → ex ≤ fexp (Zdigits2 mx + ex) →
  valid_binary Float64.prec Float64.emax
    (binary_round_aux Float64.prec Float64.emax sx mx ex lx) = true.
Proof.
  intros Hmx Hex. unfold binary_round_aux.
  destruct (shr_fexp_spec mx ex lx Hmx Hex) as [Hm1 He1].
  pose proof (shr_fexp_nonneg mx ex lx Hmx) as Hn1.
  destruct (shr_fexp _ _ mx ex lx) as [mrs1 e1]. cbn [fst snd] in *.
  set (m' := shr_m mrs1) in *.
  set (m1 := round_nearest_even m' (loc_of_shr_record mrs1)).
  assert (m' ≤ m1 ≤ m' + 1) as Hm1b.
  { unfold m1, round_nearest_even.
    destruct (loc_of_shr_record mrs1) as [|[]]; try lia.
    destruct (Z.even m'); lia. }
  assert (e1 ≤ fexp (Zdigits2 m1 + e1)) as HK.
  { destruct (Z.eq_dec m' 0) as [H0|H0].
    - assert (e1 = -1074); [|rewrite fexp_eq; lia].
      subst e1. rewrite H0 in Hm1. symmetry in Hm1.
      apply Z.shiftr_eq_0_iff in Hm1 as [->|[Hpos Hlog]].
      + cbn [Zdigits2] in *. rewrite fexp_eq in *. lia.
      + rewrite Zdigits2_log2 in * by done. rewrite fexp_eq in *. lia.
    - assert (0 < Z.shiftr mx (fexp (Zdigits2 mx + ex) - ex)) as Hpos by lia.
      apply Zdigits2_shiftr in Hpos; [|lia]. rewrite <- Hm1 in Hpos.
      pose proof (Zdigits2_mono m' m1 ltac:(lia)) as Hmono.
      transitivity (fexp (Zdigits2 mx + ex)); [lia | apply fexp_mono; lia]. }
  assert (0 ≤ m1) as Hm1n by lia.
  destruct (shr_fexp_spec m1 e1 loc_Exact Hm1n HK) as [Hm2 He2].
  destruct (shr_fexp _ _ m1 e1 loc_Exact) as [mrs2 e2]. cbn [fst snd] in *.
  destruct (shr_m mrs2) as [|m|m] eqn:Hs; [done| |done].
  destruct (e2 <=? Float64.emax - Float64.prec) eqn:Hle; [|done].
  cbn [valid_binary]. unfold bounded. rewrite Hle, andb_true_r.
  unfold canonical_mantissa. apply Z.eqb_eq.
  assert (0 < Z.shiftr m1 (fexp (Zdigits2 m1 + e1) - e1)) as Hpos by lia.
  apply Zdigits2_shiftr in Hpos; [|lia].
  rewrite <- Hm2 in Hpos. cbn [Zdigits2] in Hpos.
  transitivity (fexp (Zdigits2 m1 + e1)); [f_equal; lia | lia].
Qed.

(* the double a stored number stands for is in canonical form *)
Lemma of_Qc_valid (q : Qc) :
  valid_binary Float64.prec Float64.emax (Float64.of_Qc q) = true.
Proof.
  assert (∀ s n d,
            valid_binary Float64.prec Float64.emax
              (SFdiv Float64.prec Float64.emax (S754_finite s n 0)
                 (S754_finite false d 0)) = true) as Hdiv.
  { intros s n d. unfold SFdiv, SFdiv_core_binary. cbn [Zdigits2].
    rewrite !Z.add_0_r, Z.sub_diag.
    set (E := Z.min (fexp (digits n - digits d)) 0).
    set (m' := match 0 - E with
               | 0 => Z.pos n
               | Z.pos _ => Z.shiftl (Z.pos n) (0 - E)
               | Z.neg _ => 0
               end).
    assert (0 ≤ - E) as HE by (unfold E; lia).
    assert (m' = Zpos n * 2 ^ (- E)) as Hm'.
    { unfold m'. rewrite Z.sub_0_l.
      destruct (- E) as [|ps|ps] eqn:Hse; [lia| |lia].
      by rewrite Z.shiftl_mul_pow2. }
    assert (0 < 2 ^ (- E)) as Hpow by (apply Z.pow_pos_nonneg; lia).
    pose proof (Z.div_pos m' (Zpos d) ltac:(nia) eq_refl) as Hq.
    assert (-1074 < E → 2 ^ 52 ≤ m' / Zpos d) as Hbig.
    { intros HE'.
      apply Z.div_le_lower_bound; [done|].
      destruct (digits_bounds n) as [Hn _]. destruct (digits_bounds d) as [_ Hd].
      assert (52 + digits d ≤ digits n - 1 + - E) as Hexp
        by (unfold E in *; rewrite fexp_eq in *; lia).
      assert (2 ^ (52 + digits d) ≤ 2 ^ (digits n - 1 + - E)) as Hp
        by (apply Z.pow_le_mono_r; lia).
      rewrite !Z.pow_add_r in Hp by lia.
      rewrite Hm'. nia. }
    unfold Z.div in Hq, Hbig.
    destruct (Z.div_eucl m' (Zpos d)) as [qt r]. cbn [fst] in Hq, Hbig.
    apply binary_round_aux_valid; [done|].
    rewrite fexp_eq.
    destruct (Z.le_gt_cases E (-1074)) as [|HE']; [lia|].
    specialize (Hbig HE').
    pose proof (Zdigits2_mono (2 ^ 52) qt ltac:(lia)) as Hd.
    change (Zdigits2 (2 ^ 52)) with 53 in Hd. lia. }
  unfold Float64.of_Qc. destruct (Qnum q); [done|apply Hdiv..].
Qed.


(* the exact value of a double, scaled to a smaller exponent *)
Lemma value_scaled (m : positive) (e ez : Z) :
  ez ≤ e →
  (inject_Z (Zpos m) * 2 ^ e == inject_Z (Zpos m * 2 ^ (e - ez)) * 2 ^ ez)%Q.
Proof.
  intros Hle. replace e with ((e - ez) + ez) at 1 by lia.
  rewrite Qpower_plus by done.
  rewrite inject_Z_mult, Zpower_Qpower by lia.
  change (inject_Z 2) with 2%Q.
  generalize (2 ^ (e - ez))%Q (2 ^ ez)%Q (inject_Z (Zpos m)).
  intros x y z. ring.
Qed.

Lemma to_Qc_positive (x : spec_float) (v : Qc) :
  Float64.to_Qc x = Some v → (0 < v)%Qc →
  ∃ m e, x = S754_finite false m e ∧ (v == inject_Z (Zpos m) * 2 ^ e)%Q.
Proof.
  destruct x as [s|s| |s m e]; cbn; try done.
  - intros [= <-] H. by apply Qclt_not_eq in H.
  - intros [= <-] H.
    assert (0 < inject_Z (Zpos m) * 2 ^ e)%Q as Hpos
      by (apply Qmult_lt_0_compat; [unfold Qlt; cbn; lia | by apply Qpower_0_lt]).
    destruct s.
    + exfalso. unfold Qclt in H. cbn in H. rewrite Qred_correct in H.
      apply Qlt_not_le in H. apply H. apply Qlt_le_weak.
      apply Qopp_lt_compat in Hpos. rewrite Qred_correct. exact Hpos.
    + exists m, e. split; [done|]. cbn. apply Qred_correct.
Qed.

(* Two positive doubles whose exact values are in the ratio n/d, as a
   relation between their mantissas at the smaller exponent. *)
Lemma ratio_mantissas (mc ml : positive) (ec el n : Z) (d : positive) :
  (inject_Z (Zpos mc) * 2 ^ ec
   == inject_Z (Zpos ml) * 2 ^ el * (n # d))%Q →
  Zpos d * (Zpos mc * 2 ^ (ec - Z.min ec el))
  = n * (Zpos ml * 2 ^ (el - Z.min ec el)).
Proof.
  intros H.
  rewrite (value_scaled mc ec (Z.min ec el)) in H by lia.
  rewrite (value_scaled ml el (Z.min ec el)) in H by lia.
  set (X := Zpos mc * 2 ^ (ec - Z.min ec el)) in *.
  set (Y := Zpos ml * 2 ^ (el - Z.min ec el)) in *.
  assert (inject_Z X == inject_Z Y * (n # d))%Q as H'.
  { apply (Qmult_inj_r _ _ (2 ^ Z.min ec el)%Q).
    - apply Qpower_not_0. done.
    - rewrite H. generalize (2 ^ Z.min ec el)%Q (inject_Z Y). intros x y. ring. }
  unfold Qeq in H'. cbn in H'. lia.
Qed.

(* The percentage computed for two doubles in an exact ratio 1 + a/b,
   with a/b between 1/64 and 1/32. *)
Lemma rise_ratio (cur low vc vl : Qc) (n : Z) (d : positive) (a b : Z) :
  Float64.to_Qc (Float64.of_Qc cur) = Some vc →
  Float64.to_Qc (Float64.of_Qc low) = Some vl →
  (0 < vl)%Qc → vc = (vl * dec n d)%Qc →
  0 < a → 32 * a < b < 64 * a → n * b = Zpos d * (a + b) →
  ∃ t, (t = 58 ∨ t = 59)
       ∧ increaseFromLowest cur low
         = Float64.mul (ratio_float a b t) (Float64.of_Qc (num 100)).
Proof.
  intros Hc Hl Hpos Hrel Ha Hab Hn.
  assert (0 < n) as Hnpos by nia.
  assert (vc == vl * (n # d))%Q as HrelQ.
  { rewrite Hrel. cbn. rewrite !Qred_correct. reflexivity. }
  assert (0 < vc)%Qc as Hcpos.
  { unfold Qclt. rewrite HrelQ.
    change (this 0%Qc) with 0%Q.
    apply Qmult_lt_0_compat; [exact Hpos | unfold Qlt; cbn; lia]. }
  destruct (to_Qc_positive _ _ Hl Hpos) as (ml & el & Hlow & Hvl).
  destruct (to_Qc_positive _ _ Hc Hcpos) as (mc & ec & Hcur & Hvc).
  pose proof (of_Qc_valid cur) as Hvalc. rewrite Hcur in Hvalc. cbn in Hvalc.
  pose proof (of_Qc_valid low) as Hvall. rewrite Hlow in Hvall. cbn in Hvall.
  rewrite Hvc, Hvl in HrelQ. apply ratio_mantissas in HrelQ.
  set (X := Zpos mc * 2 ^ (ec - Z.min ec el)) in *.
  set (Y := Zpos ml * 2 ^ (el - Z.min ec el)) in *.
  assert (b * (X - Y) = a * Y) as HrelZ.
  { apply (Z.mul_cancel_l _ _ (Zpos d)); [done|].
    transitivity (b * (Zpos d * X) - Zpos d * b * Y); [ring|].
    rewrite HrelQ.
    transitivity (n * b * Y - Zpos d * b * Y); [ring|].
    rewrite Hn. ring. }
  destruct (sub_exact mc ml ec el a b Hvalc Hvall) as (mz & f & Hsub & Hf & Hcz & Hz);
    [lia | exact HrelZ |].
  destruct (bounded_spec ml el Hvall) as [Hcl _].
  destruct (div_ratio mz ml f el a b Hcz Hcl Hf Ha Hab Hz) as (t & Ht & Hdiv).
  exists t. split; [done|].
  unfold increaseFromLowest. by rewrite Hcur, Hlow, Hsub, Hdiv.
Qed.


(* a rise of exactly 2 percent computes to the double 2 *)
Lemma rise_2_percent (cur low vc vl : Qc) :
  Float64.to_Qc (Float64.of_Qc cur) = Some vc →
  Float64.to_Qc (Float64.of_Qc low) = Some vl →
  (0 < vl)%Qc → vc = (vl * dec 102 100)%Qc →
  increaseFromLowest cur low = Float64.of_Qc (num 2).
Proof.
  intros Hc Hl Hpos Hrel.
  destruct (rise_ratio cur low vc vl 102 100 1 50 Hc Hl Hpos Hrel)
    as (t & [->| ->] & ->); try lia; by vm_compute.
Qed.

(* a rise of exactly 1.999 percent computes to the double nearest to
   1.999 *)
Lemma rise_1_999_percent (cur low vc vl : Qc) :
  Float64.to_Qc (Float64.of_Qc cur) = Some vc →
  Float64.to_Qc (Float64.of_Qc low) = Some vl →
  (0 < vl)%Qc → vc = (vl * dec 101999 100000)%Qc →
  increaseFromLowest cur low = Float64.of_Qc (dec 1999 1000).
Proof.
  intros Hc Hl Hpos Hrel.
  destruct (rise_ratio cur low vc vl 101999 100000 1999 100000 Hc Hl Hpos Hrel)
    as (t & [->| ->] & ->); try lia; by vm_compute.
Qed.

End FloatFacts.

(* --------------------------------------------------------------------- *)
(* TradingBot: one token of an evaluation tick                            *)
(* --------------------------------------------------------------------- *)

Section TickFacts.
Import Num TradingBot Props.
Local Open Scope Qc_scope.

Lemma qmax_spec (a b : Qc) : a ≤ qmax a b ∧ b ≤ qmax a b ∧ (qmax a b = a ∨ qmax a b = b).
Proof.
  unfold qmax. destruct (ltb a b) eqn:E.
  - apply ltb_lt in E. repeat split; [by apply Qclt_le_weak | apply Qcle_refl | by right].
  - apply ltb_ge in E. repeat split; [apply Qcle_refl | done | by left].
Qed.

Lemma qmin_spec (a b : Qc) : qmin a b ≤ a ∧ qmin a b ≤ b ∧ (qmin a b = a ∨ qmin a b = b).
Proof.
  unfold qmin. destruct (ltb b a) eqn:E.
  - apply ltb_lt in E. repeat split; [by apply Qclt_le_weak | apply Qcle_refl | by right].
  - apply ltb_ge in E. repeat split; [apply Qcle_refl | done | by left].
Qed.


Lemma lowest_after (p : Qc) (m : Monitored) :
  lowestPrice (lower_lowest p (raise_highest p m)) = qmin (lowestPrice m) p.
Proof.
  unfold lower_lowest, raise_highest, qmin.
  destruct (gtb p (highestPrice m)); simpl; by destruct (ltb p (lowestPrice m)).
Qed.

Lemma peak_after (p : Qc) (pos : Position) :
  peakPrice (raise_peak p pos) = qmax (peakPrice pos) p
  ∧ same_holding pos (raise_peak p pos).
Proof.
  unfold raise_peak, qmax, gtb, same_holding.
  by destruct (ltb (peakPrice pos) p).
Qed.

(* tickToken with the monitored entry made explicit *)
Lemma tickToken_unfold (bot : Bot) (token : Token) :
  ∃ m,
    lowestPrice m = tracked_low bot token
    ∧ tickToken bot token
      = let bot2 :=
          set_monitoredTokens bot (<[symbol token := m]> (monitoredTokens bot)) in
        match positions bot !! symbol token with
        | Some position0 =>
            let position := raise_peak (currentPrice token) position0 in
            let drop := dropFromPeak (peakPrice position) (currentPrice token) in
            (set_positions bot2 (<[symbol token := position]> (positions bot)),
             if Float64.geb drop (Float64.of_Qc (sellThreshold (config bot)))
             then [ {| sig_type := Sell; sig_token := token;
                       sig_reason := PriceDropped drop (peakPrice position) |} ]
             else [])
        | None =>
            let inc := increaseFromLowest (currentPrice token) (lowestPrice m) in
            (bot2,
             if Float64.geb inc (Float64.of_Qc (buyThreshold (config bot)))
                && ltb (positions_size bot) (maxPositions (config bot))
             then [ {| sig_type := Buy; sig_token := token;
                       sig_reason := PriceIncreased inc |} ]
             else [])
        end.
Proof.
  unfold tickToken, tracked_low, monitorToken.
  destruct (monitoredTokens bot !! symbol token) as [m0|] eqn:Em.
  - rewrite Em. eexists. split; [apply lowest_after|].
    unfold positions_size. cbn [positions set_monitoredTokens config].
    destruct (positions bot !! symbol token); cbn zeta.
    + by destruct (Float64.geb _ _).
    + by destruct (_ && _).
  - cbn [monitoredTokens set_monitoredTokens]. rewrite lookup_insert_eq.
    set (fresh := {| mon_symbol := symbol token;
                     monitorStartPrice := currentPrice token;
                     highestPrice := currentPrice token;
                     lowestPrice := currentPrice token |}).
    exists (lower_lowest (currentPrice token)
              (raise_highest (currentPrice token) fresh)).
    split.
    + rewrite lowest_after. unfold qmin. by destruct (ltb _ _).
    + unfold positions_size. cbn [positions set_monitoredTokens config].
      rewrite insert_insert_eq.
      destruct (positions bot !! symbol token); cbn zeta.
      * by destruct (Float64.geb _ _).
      * by destruct (_ && _).
Qed.

(* What processing one token leaves alone. *)
Lemma tickToken_frame (bot : Bot) (token : Token) :
  config (tickToken bot token).1 = config bot
  ∧ balance (tickToken bot token).1 = balance bot
  ∧ tradeHistory (tickToken bot token).1 = tradeHistory bot
  ∧ stats (tickToken bot token).1 = stats bot
  ∧ size (positions (tickToken bot token).1) = size (positions bot)
  ∧ (∀ sym, sym ≠ symbol token →
       positions (tickToken bot token).1 !! sym = positions bot !! sym
       ∧ monitoredTokens (tickToken bot token).1 !! sym
         = monitoredTokens bot !! sym)
  ∧ (∀ s, s ∈ (tickToken bot token).2 → sig_token s = token).
Proof.
  destruct (tickToken_unfold bot token) as (m & _ & ->). cbn zeta.
  destruct (positions bot !! symbol token) as [pos|] eqn:Ep; cbn.
  - repeat split; try done.
    + by rewrite map_size_insert_Some.
    + by rewrite lookup_insert_ne.
    + by rewrite lookup_insert_ne.
    + intros s. destruct (Float64.geb _ _); [|by intros ?%elem_of_nil].
      by intros ->%list_elem_of_singleton.
  - repeat split; try done.
    + by rewrite lookup_insert_ne.
    + intros s. destruct (_ && _); [|by intros ?%elem_of_nil].
      by intros ->%list_elem_of_singleton.
Qed.

Lemma updateMonitoring_from_acc (bot : Bot) (acc : list Signal) (tokens : list Token) :
  updateMonitoring_from bot acc tokens
  = ((updateMonitoring bot tokens).1, acc ++ (updateMonitoring bot tokens).2).
Proof.
  unfold updateMonitoring. revert bot acc.
  induction tokens as [|t rest IH]; intros bot acc; simpl.
  - by rewrite app_nil_r.
  - destruct (tickToken bot t) as [bot' pushed].
    rewrite (IH bot' (acc ++ pushed)), (IH bot' pushed).
    simpl. by rewrite app_assoc.
Qed.

Lemma updateMonitoring_cons (bot : Bot) (t : Token) (rest : list Token) :
  updateMonitoring bot (t :: rest)
  = ((updateMonitoring (tickToken bot t).1 rest).1,
     (tickToken bot t).2 ++ (updateMonitoring (tickToken bot t).1 rest).2).
Proof.
  unfold updateMonitoring at 1. simpl.
  destruct (tickToken bot t) as [bot' pushed]. simpl.
  apply updateMonitoring_from_acc.
Qed.

Lemma agree_at_refl (sym : string) (b : Bot) : agree_at sym b b.
Proof. by repeat split. Qed.

Lemma agree_at_tick (sym : string) (b1 b2 : Bot) (t : Token) :
  agree_at sym b1 b2 → symbol t ≠ sym → agree_at sym b1 (tickToken b2 t).1.
Proof.
  intros (Hc & Hs & Hp & Hm) Hne.
  destruct (tickToken_frame b2 t) as (Fc & _ & _ & _ & Fs & Fo & _).
  destruct (Fo sym) as [Fp Fm]; [done|].
  repeat split; congruence.
Qed.

Lemma updateMonitoring_agree (sym : string) (b1 b2 : Bot) (tokens : list Token) :
  agree_at sym b1 b2 → sym ∉ symbol <$> tokens →
  agree_at sym b1 (updateMonitoring b2 tokens).1
  ∧ ∀ s, s ∈ (updateMonitoring b2 tokens).2 → symbol (sig_token s) ≠ sym.
Proof.
  revert b2. induction tokens as [|t rest IH]; intros b2 Hag Hnot.
  - split; [done|]. by intros s ?%elem_of_nil.
  - rewrite fmap_cons, not_elem_of_cons in Hnot. destruct Hnot as [Hne Hrest].
    rewrite updateMonitoring_cons. cbn [fst snd].
    destruct (IH (tickToken b2 t).1) as [IH1 IH2];
      [by apply agree_at_tick | done |].
    split; [done|]. intros s [Hs|Hs]%elem_of_app.
    + destruct (tickToken_frame b2 t) as (_ & _ & _ & _ & _ & _ & Ft).
      by rewrite (Ft s Hs).
    + by apply IH2.
Qed.

(* In a tick over tokens with distinct symbols, what happens to one of
   them is what tickToken does to it from a state that agrees with the
   state before the tick at that symbol. *)
Lemma updateMonitoring_at (bot : Bot) (tokens : list Token) (token : Token) :
  NoDup (symbol <$> tokens) → token ∈ tokens →
  ∃ bot0,
    agree_at (symbol token) bot bot0
    ∧ (∀ side, emits side token (updateMonitoring bot tokens).2
               ↔ emits side token (tickToken bot0 token).2)
    ∧ positions (updateMonitoring bot tokens).1 !! symbol token
      = positions (tickToken bot0 token).1 !! symbol token
    ∧ monitoredTokens (updateMonitoring bot tokens).1 !! symbol token
      = monitoredTokens (tickToken bot0 token).1 !! symbol token.
Proof.
  revert bot. induction tokens as [|t rest IH]; intros bot Hnd Hin.
  - by apply elem_of_nil in Hin.
  - rewrite fmap_cons in Hnd. apply NoDup_cons in Hnd as [Hfresh Hnd].
    rewrite updateMonitoring_cons. cbn [fst snd].
    apply elem_of_cons in Hin as [->|Hin].
    + exists bot. split; [apply agree_at_refl|].
      destruct (updateMonitoring_agree (symbol t) (tickToken bot t).1
                  (tickToken bot t).1 rest) as [(_ & _ & Hp & Hm) Hs];
        [apply agree_at_refl | done |].
      split; [|done].
      intros side. unfold emits. split.
      * intros [why [H|H]%elem_of_app]; [by exists why|].
        by destruct (Hs _ H).
      * intros [why H]. exists why. apply elem_of_app. by left.
    + assert (symbol t ≠ symbol token) as Hne.
      { intros Heq. apply Hfresh. rewrite Heq. by apply list_elem_of_fmap_2. }
      destruct (IH (tickToken bot t).1 Hnd Hin) as (bot0 & Hag & Hs & Hp & Hm).
      exists bot0. split.
      { destruct Hag as (A1 & A2 & A3 & A4).
        destruct (agree_at_tick (symbol token) bot bot t) as (B1 & B2 & B3 & B4);
          [apply agree_at_refl | done |].
        repeat split; congruence. }
      split; [|done].
      intros side. rewrite <- Hs. unfold emits. split.
      * intros [why [H|H]%elem_of_app]; [|by exists why].
        destruct (tickToken_frame bot t) as (_ & _ & _ & _ & _ & _ & Ft).
        apply Ft in H. simpl in H. by subst.
      * intros [why H]. exists why. apply elem_of_app. by right.
Qed.

End TickFacts.

(* --------------------------------------------------------------------- *)
(* SignalEngine: the threshold rules                                      *)
(* --------------------------------------------------------------------- *)

Section SignalRules.
Import Num TradingBot Props.
Local Open Scope Qc_scope.

(* What a tick over tokens with distinct symbols does at one of them that
   has no open position. *)
Lemma flat_tick (bot : Bot) (tokens : list Token) (token : Token) :
  NoDup (symbol <$> tokens) → token ∈ tokens →
  positions bot !! symbol token = None →
  let low := tracked_low bot token in
  let signals := (updateMonitoring bot tokens).2 in
  (∃ m, monitoredTokens (updateMonitoring bot tokens).1 !! symbol token = Some m
        ∧ lowestPrice m = low)
  ∧ (emits Buy token signals
     ↔ Float64.geb (increaseFromLowest (currentPrice token) low)
         (Float64.of_Qc (buyThreshold (config bot))) = true
       ∧ positions_size bot < maxPositions (config bot))
  ∧ ¬ emits Sell token signals.
Proof.
  intros Hnd Hin Hflat low signals.
  destruct (updateMonitoring_at bot tokens token Hnd Hin)
    as (bot0 & (Hc & Hsz & Hp & Hm) & Hsig & _ & Hmon).
  assert (tracked_low bot0 token = low) as Hl0.
  { unfold low, tracked_low. by rewrite Hm. }
  destruct (tickToken_unfold bot0 token) as (m & Hm0 & Heq).
  rewrite Hp, Hflat in Heq. cbn zeta in Heq.
  rewrite Hm0, Hl0, Hc in Heq.
  assert (positions_size bot0 = positions_size bot) as Hps
    by (unfold positions_size; by rewrite Hsz).
  rewrite Hps in Heq.
  split_and!.
  - exists m. rewrite Hmon, Heq. cbn. rewrite lookup_insert_eq.
    split; [done|]. by rewrite Hm0.
  - unfold signals. rewrite Hsig, Heq. cbn [snd]. unfold emits.
    destruct (Float64.geb _ _) eqn:E1; [destruct (ltb _ _) eqn:E2|]; simpl.
    + apply ltb_lt in E2. split; [done|].
      intros _. eexists. by apply list_elem_of_singleton.
    + apply ltb_ge in E2. split.
      * by intros [why ?%elem_of_nil].
      * intros [_ H]. by destruct (Qclt_not_le _ _ H).
    + split; [by intros [why ?%elem_of_nil] | by intros [? _]].
  - unfold signals. rewrite Hsig, Heq. cbn [snd]. intros [why H].
    destruct (_ && _); [|by apply elem_of_nil in H].
    by apply list_elem_of_singleton in H.
Qed.

(* What a tick over tokens with distinct symbols does at one of them that
   has an open position. *)
Lemma held_tick (bot : Bot) (tokens : list Token) (token : Token)
    (pos : Position) :
  NoDup (symbol <$> tokens) → token ∈ tokens →
  positions bot !! symbol token = Some pos →
  let peak := qmax (peakPrice pos) (currentPrice token) in
  let signals := (updateMonitoring bot tokens).2 in
  (∃ pos', positions (updateMonitoring bot tokens).1 !! symbol token = Some pos'
           ∧ peakPrice pos' = peak ∧ same_holding pos pos')
  ∧ (emits Sell token signals
     ↔ Float64.geb (dropFromPeak peak (currentPrice token))
         (Float64.of_Qc (sellThreshold (config bot))) = true)
  ∧ ¬ emits Buy token signals.
Proof.
  intros Hnd Hin Hheld peak signals.
  destruct (updateMonitoring_at bot tokens token Hnd Hin)
    as (bot0 & (Hc & Hsz & Hp & Hm) & Hsig & Hpos & _).
  destruct (tickToken_unfold bot0 token) as (m & _ & Heq).
  rewrite Hp, Hheld in Heq. cbn zeta in Heq. rewrite Hc in Heq.
  destruct (peak_after (currentPrice token) pos) as [Hpk Hsame].
  rewrite Hpk in Heq. fold peak in Heq.
  split_and!.
  - exists (raise_peak (currentPrice token) pos).
    rewrite Hpos, Heq. cbn. by rewrite lookup_insert_eq.
  - unfold signals. rewrite Hsig, Heq. cbn [snd]. unfold emits.
    destruct (Float64.geb _ _) eqn:E.
    + split; [done|]. intros _. eexists. by apply list_elem_of_singleton.
    + split; [by intros [why ?%elem_of_nil] | done].
  - unfold signals. rewrite Hsig, Heq. cbn [snd]. intros [why H].
    destruct (Float64.geb _ _); [|by apply elem_of_nil in H].
    by apply list_elem_of_singleton in H.
Qed.

(* the percentage over a low of zero, for a price that is a positive
   double *)
Lemma rise_from_zero (cur : Qc) (m : positive) (e : Z) :
  Float64.of_Qc cur = S754_finite false m e →
  increaseFromLowest cur 0 = S754_infinity false.
Proof. intros H. unfold increaseFromLowest. by rewrite H. Qed.

(** C5, as the code has it: in a tick over tokens with distinct symbols,
    a token whose symbol has no open position gets a buy signal if and
    only if ((currentPrice - low) / low) * 100 >= buyThreshold, evaluated
    in binary64 with every operation rounded as the code evaluates it,
    and the number of open positions is below maxPositions, where low is
    the smaller of the tracked lowestPrice and the price of the tick
    (that price alone for a symbol seen for the first time); no sell
    signal is emitted for it.  When the doubles held for the price and
    for a positive low are in the exact ratio 1.02 the percentage
    computes to the double 2, and with buyThreshold = 2 the price is
    signalled; in the exact ratio 1.01999 it computes to the double
    nearest to 1.999, and the price is not signalled.  A rise that is
    2 percent in decimal notation only need not be signalled: after a
    low of 10 a price of 10.2 is not, the double nearest to 10.2 being
    below 10.2.  Over a low of 0 a price that is a positive double is
    signalled at every threshold, the percentage being +Infinity. *)
Theorem buy_signal_iff (bot : Bot) (tokens : list Token) (token : Token) :
  NoDup (symbol <$> tokens) → token ∈ tokens →
  positions bot !! symbol token = None →
  let low := tracked_low bot token in
  let cur := currentPrice token in
  let signals := (updateMonitoring bot tokens).2 in
  let room := positions_size bot < maxPositions (config bot) in
  let rise :=
    Float64.mul
      (Float64.div
         (Float64.sub (Float64.of_Qc cur) (Float64.of_Qc low))
         (Float64.of_Qc low))
      (Float64.of_Qc (num 100)) in
  (low ≤ cur
   ∧ match monitoredTokens bot !! symbol token with
     | Some m0 => low ≤ lowestPrice m0 ∧ (low = lowestPrice m0 ∨ low = cur)
     | None => low = cur
     end)
  ∧ (∃ m, monitoredTokens (updateMonitoring bot tokens).1 !! symbol token = Some m
          ∧ lowestPrice m = low)
  ∧ (emits Buy token signals
     ↔ Float64.geb rise (Float64.of_Qc (buyThreshold (config bot))) = true
       ∧ room)
  ∧ ¬ emits Sell token signals
  ∧ (∀ vc vl,
       Float64.to_Qc (Float64.of_Qc cur) = Some vc →
       Float64.to_Qc (Float64.of_Qc low) = Some vl →
       0 < vl → vc = vl * dec 102 100 →
       rise = Float64.of_Qc (num 2)
       ∧ (buyThreshold (config bot) = num 2 → room →
          emits Buy token signals))
  ∧ (∀ vc vl,
       Float64.to_Qc (Float64.of_Qc cur) = Some vc →
       Float64.to_Qc (Float64.of_Qc low) = Some vl →
       0 < vl → vc = vl * dec 101999 100000 →
       rise = Float64.of_Qc (dec 1999 1000)
       ∧ (buyThreshold (config bot) = num 2 → ¬ emits Buy token signals))
  ∧ (buyThreshold (config bot) = num 2 →
     low = num 10 → cur = dec 102 10 → ¬ emits Buy token signals)
  ∧ (room → low = 0 →
     (∃ m e, Float64.of_Qc cur = S754_finite false m e) →
     emits Buy token signals).
Proof.
  intros Hnd Hin Hflat low cur signals room rise.
  destruct (flat_tick bot tokens token Hnd Hin Hflat) as (Hmon & Hiff & Hsell).
  fold low signals in Hmon, Hiff, Hsell.
  change (increaseFromLowest (currentPrice token) low) with rise in Hiff.
  split.
  { unfold low, cur, tracked_low.
    destruct (monitoredTokens bot !! symbol token) as [m0|].
    - destruct (qmin_spec (lowestPrice m0) (currentPrice token)) as (? & ? & ?).
      done.
    - split; [apply Qcle_refl | done]. }
  split; [exact Hmon|]. split; [exact Hiff|]. split; [exact Hsell|].
  split_and!.
  - intros vc vl Hc Hl Hpos Hrel.
    pose proof (rise_2_percent cur low vc vl Hc Hl Hpos Hrel) as Hrise.
    change (increaseFromLowest cur low) with rise in Hrise.
    split; [exact Hrise|].
    intros Hthr Hroom. apply Hiff. split; [|exact Hroom].
    rewrite Hrise, Hthr. reflexivity.
  - intros vc vl Hc Hl Hpos Hrel.
    pose proof (rise_1_999_percent cur low vc vl Hc Hl Hpos Hrel) as Hrise.
    change (increaseFromLowest cur low) with rise in Hrise.
    split; [exact Hrise|].
    intros Hthr [H _]%Hiff. revert H.
    rewrite Hrise, Hthr. by vm_compute.
  - intros Hthr Hlow Hcur [H _]%Hiff. revert H.
    unfold rise. rewrite Hthr, Hlow, Hcur. by vm_compute.
  - intros Hroom Hlow (m & e & Hc). apply Hiff. split; [|exact Hroom].
    change rise with (increaseFromLowest cur low).
    rewrite Hlow, (rise_from_zero cur m e Hc). apply geb_infinity.
Qed.

Lemma buy_signal_iff_witness :
  emits Buy (btc (num 102)) (updateMonitoring bot_low_100 [btc (num 102)]).2.
Proof.
  destruct (buy_signal_iff bot_low_100 [btc (num 102)] (btc (num 102)))
    as (_ & _ & _ & _ & H & _).
  - apply NoDup_singleton.
  - by apply list_elem_of_singleton.
  - reflexivity.
  - destruct (H (num 102) (num 100)) as [_ Hemit].
    + unfold Float64.to_Qc. vm_compute Float64.of_Qc. cbv iota beta.
      f_equal. apply Qc_is_canon. reflexivity.
    + unfold Float64.to_Qc.
      replace (tracked_low bot_low_100 (btc (num 102))) with (num 100)
        by (apply Qc_is_canon; reflexivity).
      vm_compute Float64.of_Qc. cbv iota beta.
      f_equal. apply Qc_is_canon. reflexivity.
    + reflexivity.
    + apply Qc_is_canon. reflexivity.
    + apply Hemit; reflexivity.
Defined.

(* The inputs of the two examples below are doubles: rounding keeps them. *)
Example examples_are_doubles :
  Float64.to_Qc (Float64.of_Qc double_0_1) = Some double_0_1
  ∧ Float64.to_Qc (Float64.of_Qc (num 125)) = Some (num 125)
  ∧ Float64.to_Qc (Float64.of_Qc (dec 125125 1000)) = Some (dec 125125 1000)
  ∧ Float64.to_Qc (Float64.of_Qc double_1_95) = Some double_1_95
  ∧ Float64.to_Qc (Float64.of_Qc double_1_8915) = Some double_1_8915.
Proof.
  split_and!; unfold Float64.to_Qc; vm_compute Float64.of_Qc; cbv iota beta;
    f_equal; apply Qc_is_canon; by vm_compute.
Qed.

(* The buy rule is not the inequality over the exact percentage: with a
   threshold of 0.1 (the double), a low of 125 and a price of 125.125
   the exact rise, 0.1 percent, is below the threshold, and the signal
   is emitted all the same, the rounded percentage being the double
   0.1. *)
Lemma buy_rule_not_exact :
  ¬ (∀ (bot : Bot) (tokens : list Token) (token : Token),
       NoDup (symbol <$> tokens) → token ∈ tokens →
       positions bot !! symbol token = None →
       0 < tracked_low bot token →
       let low := tracked_low bot token in
       let cur := currentPrice token in
       let signals := (updateMonitoring bot tokens).2 in
       let room := positions_size bot < maxPositions (config bot) in
       (emits Buy token signals
        ↔ buyThreshold (config bot) ≤ (cur - low) / low * num 100 ∧ room)
       ∧ (buyThreshold (config bot) = num 2 → room →
          cur = low * dec 102 100 → emits Buy token signals)
       ∧ (buyThreshold (config bot) = num 2 →
          cur = low * dec 101999 100000 → ¬ emits Buy token signals)).
Proof.
  intros H.
  set (token := btc (dec 125125 1000)).
  assert (NoDup (symbol <$> [token])) as Hnd by apply NoDup_singleton.
  assert (token ∈ [token]) as Hin by by apply list_elem_of_singleton.
  assert (positions bot_low_125 !! symbol token = None) as Hflat by by vm_compute.
  destruct (flat_tick bot_low_125 [token] token Hnd Hin Hflat) as (_ & Hiff & _).
  assert (emits Buy token (updateMonitoring bot_low_125 [token]).2) as Hemit.
  { apply Hiff. split; by vm_compute. }
  destruct (H bot_low_125 [token] token Hnd Hin Hflat) as [Hexact _];
    [by vm_compute|].
  apply Hexact in Hemit as [Hle _]. revert Hle. vm_compute.
  intros Hle. exact (Hle eq_refl).
Qed.

(* The boundary in decimal notation: under the default configuration,
   after a low of 10 a price of 10.2, which is 1.02 * 10, is not
   signalled; the double nearest to 10.2 is below 10.2 and the
   percentage is rounded to a double below 2. *)
Example rise_10_to_10_2 :
  dec 102 10 = num 10 * dec 102 100
  ∧ tracked_low bot_low_10 (btc (dec 102 10)) = num 10
  ∧ positions_size bot_low_10 < maxPositions (config bot_low_10)
  ∧ Float64.geb (increaseFromLowest (dec 102 10) (num 10))
      (Float64.of_Qc (num 2)) = false
  ∧ ¬ emits Buy (btc (dec 102 10))
        (updateMonitoring bot_low_10 [btc (dec 102 10)]).2.
Proof.
  split; [apply Qc_is_canon; by vm_compute|].
  split; [apply Qc_is_canon; by vm_compute|].
  split; [by vm_compute|]. split; [by vm_compute|].
  set (token := btc (dec 102 10)).
  assert (NoDup (symbol <$> [token])) as Hnd by apply NoDup_singleton.
  assert (token ∈ [token]) as Hin by by apply list_elem_of_singleton.
  assert (positions bot_low_10 !! symbol token = None) as Hflat by by vm_compute.
  destruct (flat_tick bot_low_10 [token] token Hnd Hin Hflat) as (_ & Hiff & _).
  intros [Hge _]%Hiff. revert Hge. by vm_compute.
Qed.

(** C7, as the code has it: in a tick over tokens with distinct symbols,
    a token whose symbol has an open position first has the position's
    peak raised to max(peakPrice, currentPrice), nothing else of the
    position changing, and then gets a sell signal if and only if
    ((peak - currentPrice) / peak) * 100 >= sellThreshold for that raised
    peak, evaluated in binary64 with every operation rounded as the code
    evaluates it; the entry price does not enter the rule, and no buy
    signal is emitted for the token.  With sellThreshold = 3 and a peak
    of 110 a price of 106.59 is signalled and a price of 106.7 is not,
    the rounded percentage being below 3. *)
Theorem sell_signal_iff (bot : Bot) (tokens : list Token) (token : Token)
    (pos : Position) :
  NoDup (symbol <$> tokens) → token ∈ tokens →
  positions bot !! symbol token = Some pos →
  let peak := qmax (peakPrice pos) (currentPrice token) in
  let cur := currentPrice token in
  let signals := (updateMonitoring bot tokens).2 in
  let drop :=
    Float64.mul
      (Float64.div
         (Float64.sub (Float64.of_Qc peak) (Float64.of_Qc cur))
         (Float64.of_Qc peak))
      (Float64.of_Qc (num 100)) in
  (peakPrice pos ≤ peak ∧ cur ≤ peak ∧ (peak = peakPrice pos ∨ peak = cur))
  ∧ (∃ pos', positions (updateMonitoring bot tokens).1 !! symbol token = Some pos'
             ∧ peakPrice pos' = peak ∧ same_holding pos pos')
  ∧ (emits Sell token signals
     ↔ Float64.geb drop (Float64.of_Qc (sellThreshold (config bot))) = true)
  ∧ ¬ emits Buy token signals
  ∧ (sellThreshold (config bot) = num 3 →
     peak = num 110 → cur = dec 10659 100 → emits Sell token signals)
  ∧ (sellThreshold (config bot) = num 3 →
     peak = num 110 → cur = dec 1067 10 → ¬ emits Sell token signals).
Proof.
  intros Hnd Hin Hheld peak cur signals drop.
  destruct (held_tick bot tokens token pos Hnd Hin Hheld) as (Hpos & Hiff & Hbuy).
  fold peak signals in Hpos, Hiff, Hbuy.
  change (dropFromPeak peak (currentPrice token)) with drop in Hiff.
  split; [apply qmax_spec|]. split; [exact Hpos|]. split; [exact Hiff|].
  split; [exact Hbuy|]. split.
  - intros Hthr Hpeak Hcur. apply Hiff.
    unfold drop. rewrite Hthr, Hpeak, Hcur. by vm_compute.
  - intros Hthr Hpeak Hcur H%Hiff. revert H.
    unfold drop. rewrite Hthr, Hpeak, Hcur. by vm_compute.
Qed.

Lemma sell_signal_iff_witness :
  emits Sell (btc (dec 10659 100))
    (updateMonitoring (updateMonitoring bot_holding [btc (num 110)]).1
       [btc (dec 10659 100)]).2.
Proof.
  set (bot := (updateMonitoring bot_holding [btc (num 110)]).1).
  set (pos := {| pos_symbol := "BTC"; amount := num 25; buyPrice := num 102;
                 peakPrice := num 110; buyTime := 0 |}).
  destruct (sell_signal_iff bot [btc (dec 10659 100)] (btc (dec 10659 100)) pos)
    as (_ & _ & _ & _ & H & _).
  - apply NoDup_singleton.
  - by apply list_elem_of_singleton.
  - by vm_compute.
  - apply H.
    + reflexivity.
    + apply Qc_is_canon. by vm_compute.
    + reflexivity.
Defined.

(* The sell rule is not the inequality over the exact percentage: with
   the default threshold of 3, a peak of 1.95 and a price of 1.8915 (the
   doubles) the exact drop is below 3 percent, and the signal is emitted
   all the same, the rounded percentage being 3. *)
Lemma sell_rule_not_exact :
  ¬ (∀ (bot : Bot) (tokens : list Token) (token : Token) (pos : Position),
       NoDup (symbol <$> tokens) → token ∈ tokens →
       positions bot !! symbol token = Some pos →
       0 < qmax (peakPrice pos) (currentPrice token) →
       (emits Sell token (updateMonitoring bot tokens).2
        ↔ sellThreshold (config bot)
          ≤ (qmax (peakPrice pos) (currentPrice token) - currentPrice token)
            / qmax (peakPrice pos) (currentPrice token) * num 100)).
Proof.
  intros H.
  set (token := btc double_1_8915).
  set (pos := {| pos_symbol := "BTC"; amount := num 1000;
                 buyPrice := double_1_95; peakPrice := double_1_95;
                 buyTime := 0 |}).
  assert (NoDup (symbol <$> [token])) as Hnd by apply NoDup_singleton.
  assert (token ∈ [token]) as Hin by by apply list_elem_of_singleton.
  assert (positions bot_peak_1_95 !! symbol token = Some pos) as Hheld
    by reflexivity.
  destruct (held_tick bot_peak_1_95 [token] token pos Hnd Hin Hheld)
    as (_ & Hiff & _).
  assert (emits Sell token (updateMonitoring bot_peak_1_95 [token]).2) as Hemit.
  { apply Hiff. by vm_compute. }
  apply (H bot_peak_1_95 [token] token pos Hnd Hin Hheld) in Hemit;
    [|by vm_compute].
  revert Hemit. by vm_compute.
Qed.

End SignalRules.

(* --------------------------------------------------------------------- *)
(* PositionLedger: buy and sell                                           *)
(* --------------------------------------------------------------------- *)

Section Ledger.
Import Num TradingBot Props.
Local Open Scope Qc_scope.



Lemma sell_result (bot : Bot) (token : Token) (why : Reason) (now : Z) :
  success (sell bot token why now).2 = true
  ↔ is_Some (positions bot !! symbol token).
Proof.
  unfold sell. destruct (positions bot !! symbol token); cbn.
  - split; [by eexists | done].
  - split; [done | by intros [? ?]].
Qed.

Lemma buy_failed (bot : Bot) (token : Token) (why : Reason) (now : Z) :
  success (buy bot token why now).2 = false → (buy bot token why now).1 = bot.
Proof.
  unfold buy. destruct (geb _ _); [done|].
  by destruct (_ || _).
Qed.

Lemma sell_failed (bot : Bot) (token : Token) (why : Reason) (now : Z) :
  success (sell bot token why now).2 = false → (sell bot token why now).1 = bot.
Proof. unfold sell. by destruct (positions bot !! symbol token). Qed.











Example negative_price_run :
  all_succeed (TradingBot.new defaultConfig) calls_negative_price = true
  ∧ balance (run (TradingBot.new defaultConfig) (take 1 calls_negative_price))
    = num 7500
  ∧ balance (run (TradingBot.new defaultConfig) calls_negative_price)
    = num (-5000).
Proof.
  split; [by vm_compute|]. split; apply Qc_is_canon; by vm_compute.
Qed.



End Ledger.

(* --------------------------------------------------------------------- *)
(* Positions: the running peak                                            *)
(* --------------------------------------------------------------------- *)

Section Peak.
Import Num TradingBot Props.
Local Open Scope Qc_scope.

Lemma raised_by_refl (tokens : list Token) (sym : string) (pos : Position) :
  raised_by tokens sym pos pos.
Proof. repeat split; [apply Qcle_refl | by left]. Qed.

Lemma raised_by_trans (l1 l2 : list Token) (sym : string) (p q r : Position) :
  raised_by l1 sym p q → raised_by l2 sym q r → raised_by (l1 ++ l2) sym p r.
Proof.
  intros ((S1 & S2 & S3 & S4) & Hle1 & H1) ((T1 & T2 & T3 & T4) & Hle2 & H2).
  split; [repeat split; congruence|].
  split; [by apply Qcle_trans with (peakPrice q)|].
  destruct H2 as [E2|(t & Ht & Hs & Hc & Hlt)].
  - destruct H1 as [E1|(t & Ht & Hs & Hc & Hlt)].
    + left. congruence.
    + right. exists t. rewrite E2. split; [apply elem_of_app; by left|done].
  - right. exists t. split; [apply elem_of_app; by right|].
    split; [done|]. split; [done|].
    by apply Qcle_lt_trans with (peakPrice q).
Qed.

Lemma raise_peak_raised (t : Token) (pos : Position) :
  raised_by [t] (symbol t) pos (raise_peak (currentPrice t) pos).
Proof.
  unfold raised_by, raise_peak, same_holding.
  destruct (gtb _ _) eqn:E; cbn.
  - apply gtb_lt in E. split; [done|]. split; [by apply Qclt_le_weak|].
    right. exists t. split; [by apply list_elem_of_singleton | done].
  - split; [done|]. split; [apply Qcle_refl | by left].
Qed.

Lemma tickToken_peak (bot : Bot) (t : Token) (sym : string) (pos : Position) :
  positions bot !! sym = Some pos →
  ∃ pos', positions (tickToken bot t).1 !! sym = Some pos'
          ∧ raised_by [t] sym pos pos'.
Proof.
  intros Hp. destruct (decide (sym = symbol t)) as [->|Hne].
  - destruct (tickToken_unfold bot t) as (m & _ & ->).
    rewrite Hp. cbn. rewrite lookup_insert_eq.
    eexists. split; [done|]. apply raise_peak_raised.
  - destruct (tickToken_frame bot t) as (_ & _ & _ & _ & _ & Hf & _).
    destruct (Hf sym Hne) as [-> _].
    exists pos. split; [done|]. apply raised_by_refl.
Qed.

Lemma updateMonitoring_peak (bot : Bot) (tokens : list Token) (sym : string)
    (pos : Position) :
  positions bot !! sym = Some pos →
  ∃ pos', positions (updateMonitoring bot tokens).1 !! sym = Some pos'
          ∧ raised_by tokens sym pos pos'.
Proof.
  revert bot pos. induction tokens as [|t rest IH]; intros bot pos Hp.
  - exists pos. split; [done|]. apply raised_by_refl.
  - rewrite updateMonitoring_cons. cbn [fst].
    destruct (tickToken_peak bot t sym pos Hp) as (p1 & Hp1 & Hr1).
    destruct (IH _ _ Hp1) as (p2 & Hp2 & Hr2).
    exists p2. split; [done|].
    by apply (raised_by_trans [t] rest sym pos p1 p2).
Qed.

Lemma run_ticks_peak (bot : Bot) (ticks : list (list Token)) (sym : string)
    (pos : Position) :
  positions bot !! sym = Some pos →
  ∃ pos', positions (run_ticks bot ticks) !! sym = Some pos'
          ∧ raised_by (mjoin ticks) sym pos pos'.
Proof.
  revert bot pos. induction ticks as [|tokens rest IH]; intros bot pos Hp.
  - exists pos. split; [done|]. apply raised_by_refl.
  - cbn. destruct (updateMonitoring_peak bot tokens sym pos Hp) as (p1 & Hp1 & Hr1).
    destruct (IH _ _ Hp1) as (p2 & Hp2 & Hr2).
    exists p2. split; [done|]. by eapply raised_by_trans.
Qed.

Lemma tickToken_peaks_ok (bot : Bot) (t : Token) :
  peaks_ok bot → peaks_ok (tickToken bot t).1.
Proof.
  intros Hok sym pos'.
  destruct (tickToken_unfold bot t) as (m & _ & ->).
  destruct (positions bot !! symbol t) as [pos0|] eqn:Hp; cbn.
  - rewrite lookup_insert. case_decide; [|apply Hok].
    intros [= <-].
    destruct (raise_peak_raised t pos0) as ((_ & _ & -> & _) & Hle & _).
    apply Qcle_trans with (peakPrice pos0); [|done]. by eapply Hok.
  - apply Hok.
Qed.

Lemma updateMonitoring_peaks_ok (bot : Bot) (tokens : list Token) :
  peaks_ok bot → peaks_ok (updateMonitoring bot tokens).1.
Proof.
  revert bot. induction tokens as [|t rest IH]; intros bot Hok; [done|].
  rewrite updateMonitoring_cons. cbn [fst].
  by apply IH, tickToken_peaks_ok.
Qed.

Lemma buy_peaks_ok (bot : Bot) (token : Token) (why : Reason) (now : Z) :
  peaks_ok bot → peaks_ok (buy bot token why now).1.
Proof.
  intros Hok. unfold buy. destruct (geb _ _); [done|].
  destruct (_ || _); [done|]. unfold peaks_ok. cbn. intros sym pos.
  rewrite lookup_insert. case_decide; [|apply Hok].
  intros [= <-]. apply Qcle_refl.
Qed.

Lemma sell_peaks_ok (bot : Bot) (token : Token) (why : Reason) (now : Z) :
  peaks_ok bot → peaks_ok (sell bot token why now).1.
Proof.
  intros Hok. unfold sell.
  destruct (positions bot !! symbol token); [|done]. unfold peaks_ok. cbn.
  intros sym pos. rewrite lookup_delete. case_decide; [done | apply Hok].
Qed.

Lemma step_peaks_ok (bot : Bot) (c : BotCall) :
  peaks_ok bot → peaks_ok (step bot c).
Proof.
  intros Hok. destruct c; cbn.
  - unfold monitorToken. by destruct (monitoredTokens bot !! symbol token).
  - by apply updateMonitoring_peaks_ok.
  - by apply buy_peaks_ok.
  - by apply sell_peaks_ok.
  - done.
  - unfold peaks_ok, reset. cbn. intros sym pos. by rewrite lookup_empty.
Qed.

(** C4: in every state a bot can reach through monitorToken,
    updateMonitoring, buy, sell, updateConfig and reset, each open position has
    peakPrice >= entryPrice; a successful buy opens the position with
    entry price and peak both at the price of the buy; and over any
    sequence of ticks a held position keeps its quantity and entry
    price while its peak never decreases and changes only to a current
    price of its symbol that is higher than the peak before. *)
Theorem peak_invariant (cfg : BotConfig) (bot : Bot) :
  reachable cfg bot →
  peaks_ok bot
  ∧ (∀ token why now trade,
       (buy bot token why now).2 = Done trade →
       ∃ pos, positions (buy bot token why now).1 !! symbol token = Some pos
              ∧ buyPrice pos = currentPrice token
              ∧ peakPrice pos = currentPrice token)
  ∧ (∀ ticks sym pos,
       positions bot !! sym = Some pos →
       ∃ pos', positions (run_ticks bot ticks) !! sym = Some pos'
               ∧ buyPrice pos' = buyPrice pos
               ∧ amount pos' = amount pos
               ∧ peakPrice pos ≤ peakPrice pos'
               ∧ buyPrice pos' ≤ peakPrice pos'
               ∧ (peakPrice pos' = peakPrice pos
                  ∨ ∃ tokens t, tokens ∈ ticks ∧ t ∈ tokens ∧ symbol t = sym
                                ∧ currentPrice t = peakPrice pos'
                                ∧ peakPrice pos < currentPrice t)).
Proof.
  intros Hreach.
  assert (peaks_ok bot) as Hok.
  { induction Hreach as [|b c _ IH]; [|by apply step_peaks_ok].
    intros sym pos. cbn. by rewrite lookup_empty. }
  split; [exact Hok|]. split.
  - intros token why now trade. unfold buy.
    destruct (geb _ _); [done|]. destruct (_ || _); [done|]. cbn.
    intros _. rewrite lookup_insert_eq. by eexists.
  - intros ticks sym pos Hp.
    destruct (run_ticks_peak bot ticks sym pos Hp)
      as (pos' & Hp' & (_ & Ha & Hb & _) & Hle & Hch).
    exists pos'. split_and!; try done.
    + rewrite Hb. apply Qcle_trans with (peakPrice pos); [|done]. by eapply Hok.
    + destruct Hch as [?|(t & Ht & ?)]; [by left|right].
      apply list_elem_of_join in Ht as (tokens & ? & ?). by exists tokens, t.
Qed.

Lemma peak_invariant_witness :
  peaks_ok bot_bought
  ∧ ∃ pos', positions (run_ticks bot_bought [[btc (num 110)]; [btc (num 105)]])
              !! "BTC" = Some pos'
            ∧ buyPrice pos' ≤ peakPrice pos'.
Proof.
  destruct (peak_invariant defaultConfig bot_bought) as (Hok & _ & Hmono).
  - unfold bot_bought. apply reach_step, reach_step, reach_new.
  - split; [exact Hok|].
    destruct (Hmono [[btc (num 110)]; [btc (num 105)]] "BTC"
                {| pos_symbol := "BTC"; amount := num 2500 / num 102;
                   buyPrice := num 102; peakPrice := num 102; buyTime := 1 |})
      as (pos' & Hp & _ & _ & _ & Hle & _).
    + reflexivity.
    + exists pos'. split; [exact Hp | exact Hle].
Defined.

End Peak.

(* --------------------------------------------------------------------- *)
(* ExecutionGuard: the in-flight mark                                     *)
(* --------------------------------------------------------------------- *)

Section Guard.
Import Num Config TradingBot OrderExecutor Props.
Local Open Scope Qc_scope.

Lemma start_in_flight (ex : Executor) (signal : Signal) :
  order_symbol signal ∈ executingOrders ex →
  executeSignal_start ex signal = (ex, Returned AlreadyExecuting).
Proof.
  intros Hin. unfold executeSignal_start, executeBuy_start, executeSell_start.
  unfold order_symbol in Hin.
  destruct (sig_type signal); by rewrite decide_True.
Qed.

Lemma unmark_mark (ex : Executor) (sym : string) :
  sym ∉ executingOrders ex → unmark (mark ex sym) sym = ex.
Proof.
  intros Hn. destruct ex as [bot marks]. unfold unmark, mark. cbn in *.
  f_equal.
  rewrite difference_union_distr_l_L, difference_diag_L, (left_id_L ∅ (∪)).
  by apply difference_disjoint_L, disjoint_singleton_r.
Qed.

(* The first half of a call that passes the in-flight check: either a
   local rejection with the executor as it was, or placeOrder called
   and the symbol marked. *)
Lemma start_free (ex : Executor) (signal : Signal) :
  order_symbol signal ∉ executingOrders ex →
  (∃ r, executeSignal_start ex signal = (ex, Returned r)
        ∧ (r = BelowMinimum ∨ r = NoPositionFound))
  ∨ (∃ req, executeSignal_start ex signal
            = (mark ex (order_symbol signal), Awaiting req)
            ∧ req_symbol req = order_symbol signal
            ∧ req_side req = sig_type signal).
Proof.
  intros Hn. unfold executeSignal_start, executeBuy_start, executeSell_start.
  unfold order_symbol in *.
  destruct (sig_type signal); rewrite decide_False by done.
  - cbn [tradingBot mark]. destruct (ltb _ _).
    + left. eexists. rewrite unmark_mark by done. split; [done | by left].
    + right. by eexists.
  - cbn [tradingBot mark]. destruct (positions _ !! _).
    + right. by eexists.
    + left. eexists. rewrite unmark_mark by done. split; [done | by right].
Qed.

(* The second half of a call, however the exchange call settles. *)
Lemma resume_exit (ex : Executor) (sym : string) (signal : Signal) (now : Z)
    (outcome : OrderOutcome) :
  let ex' := (executeSignal_resume ex sym signal now outcome).1 in
  let r := (executeSignal_resume ex sym signal now outcome).2 in
  executingOrders ex' = executingOrders ex ∖ {[ sym ]}
  ∧ match outcome with
    | Filled orderId =>
        (∃ trade, r = Executed trade orderId)
        ∨ (∃ botResult, r = BotRejected botResult
                        ∧ success botResult = false
                        ∧ tradingBot ex' = tradingBot ex)
    | Declined error => r = OrderFailed error ∧ tradingBot ex' = tradingBot ex
    | Threw msg => r = Fault msg ∧ tradingBot ex' = tradingBot ex
    end.
Proof.
  unfold executeSignal_resume, executeBuy_resume, executeSell_resume.
  destruct (sig_type signal), outcome; cbn; try done.
  - pose proof (buy_failed (tradingBot ex) (sig_token signal)
                  (sig_reason signal) now) as Hf.
    destruct (buy _ _ _ _) as [bot' [trade| | |]]; cbn in *; split; try done.
    + left. by eexists.
    + right. eexists. by rewrite Hf.
    + right. eexists. by rewrite Hf.
    + right. eexists. by rewrite Hf.
  - pose proof (sell_failed (tradingBot ex) (sig_token signal)
                  (sig_reason signal) now) as Hf.
    destruct (sell _ _ _ _) as [bot' [trade| | |]]; cbn in *; split; try done.
    + left. by eexists.
    + right. eexists. by rewrite Hf.
    + right. eexists. by rewrite Hf.
    + right. eexists. by rewrite Hf.
Qed.

Lemma resume_not_rejected (ex : Executor) (sym : string) (signal : Signal)
    (now : Z) (outcome : OrderOutcome) :
  is_AlreadyExecuting (executeSignal_resume ex sym signal now outcome).2 = false.
Proof.
  destruct (resume_exit ex sym signal now outcome) as [_ H].
  destruct outcome.
  - destruct H as [[trade ->]|(br & -> & _)]; done.
  - by destruct H as [-> _].
  - by destruct H as [-> _].
Qed.

Lemma start_awaiting (ex ex1 : Executor) (signal : Signal) (req : OrderRequest) :
  executeSignal_start ex signal = (ex1, Awaiting req) →
  (order_symbol signal ∉ executingOrders ex)
  ∧ ex1 = mark ex (order_symbol signal)
  ∧ req_symbol req = order_symbol signal.
Proof.
  intros Hs. destruct (decide (order_symbol signal ∈ executingOrders ex)) as [Hin|Hn].
  - rewrite start_in_flight in Hs by done. discriminate.
  - destruct (start_free ex signal Hn) as [(r & Hr & _)|(req' & Hr & Hq & _)];
      rewrite Hr in Hs; [discriminate|].
    injection Hs as <- <-. done.
Qed.

(** C3: a call of executeBuy or executeSell that passes the in-flight
    check leaves the symbol unmarked when it returns before the exchange
    call; otherwise the symbol is marked while the call is suspended, and
    the resumed call removes the mark however the exchange call settles:
    filled with the ledger accepting, filled with the ledger rejecting,
    declined, or thrown.  A call awaited on its own returns with the
    symbol unmarked. *)
Theorem mark_released (ex : Executor) (signal : Signal) :
  order_symbol signal ∉ executingOrders ex →
  (∀ ex1 r, executeSignal_start ex signal = (ex1, Returned r) →
            order_symbol signal ∉ executingOrders ex1)
  ∧ (∀ ex1 req,
       executeSignal_start ex signal = (ex1, Awaiting req) →
       order_symbol signal ∈ executingOrders ex1
       ∧ req_symbol req = order_symbol signal
       ∧ ∀ ex2 sg now outcome,
           order_symbol signal
           ∉ executingOrders (executeSignal_resume ex2 (req_symbol req) sg now outcome).1)
  ∧ (∀ now exchange,
       order_symbol signal ∉ executingOrders (executeSignal ex signal now exchange).1).
Proof.
  intros Hn.
  assert (∀ ex2 sg now outcome,
            order_symbol signal
            ∉ executingOrders
                (executeSignal_resume ex2 (order_symbol signal) sg now outcome).1)
    as Hres.
  { intros ex2 sg now outcome.
    destruct (resume_exit ex2 (order_symbol signal) sg now outcome) as [-> _].
    apply not_elem_of_difference. right. by apply elem_of_singleton. }
  split_and!.
  - intros ex1 r Hs.
    destruct (start_free ex signal Hn) as [(r' & Hr & _)|(req & Hr & _)];
      rewrite Hr in Hs; [|discriminate].
    by injection Hs as <- <-.
  - intros ex1 req Hs.
    apply start_awaiting in Hs as (_ & -> & Hq). rewrite Hq.
    split_and!; [|done|apply Hres].
    cbn. apply elem_of_union. left. by apply elem_of_singleton.
  - intros now exchange. unfold executeSignal.
    destruct (start_free ex signal Hn) as [(r & -> & _)|(req & -> & Hq & _)]; cbn.
    + done.
    + rewrite Hq. apply Hres.
Qed.

Lemma mark_released_witness :
  order_symbol buy_btc
  ∉ executingOrders
      (executeSignal (OrderExecutor.new bot_low_100) buy_btc 1
         (λ _, Threw "timeout")).1.
Proof.
  destruct (mark_released (OrderExecutor.new bot_low_100) buy_btc) as (_ & _ & H).
  - cbn. apply not_elem_of_empty.
  - apply H.
Defined.

(** C2, as the code has it: a call for a symbol that is in the in-flight
    set returns the in-flight rejection with the executor, ledger
    included, as it was and without calling placeOrder.  Of two calls
    for one symbol issued one right after the other, when the first is
    suspended in its exchange call the second gets the in-flight
    rejection and the first does not, so exactly one proceeds; when the
    first returns before the exchange call it has left the executor as
    it was, and the second call runs as if it were alone. *)
Theorem in_flight_rejection (ex : Executor) (s1 s2 : Signal) (now : Z)
    (exchange : OrderRequest → OrderOutcome) :
  symbol (sig_token s2) = symbol (sig_token s1) →
  (order_symbol s2 ∈ executingOrders ex →
   executeSignal_start ex s2 = (ex, Returned AlreadyExecuting))
  ∧ (∀ ex1 req,
       executeSignal_start ex s1 = (ex1, Awaiting req) →
       executeSignal_start ex1 s2 = (ex1, Returned AlreadyExecuting)
       ∧ (race ex s1 s2 now exchange).2 = AlreadyExecuting
       ∧ is_AlreadyExecuting (race ex s1 s2 now exchange).1.2 = false
       ∧ exactly_one_proceeds (race ex s1 s2 now exchange).1.2
                              (race ex s1 s2 now exchange).2)
  ∧ (∀ ex1 r,
       executeSignal_start ex s1 = (ex1, Returned r) →
       ex1 = ex
       ∧ (race ex s1 s2 now exchange).1.2 = r
       ∧ (race ex s1 s2 now exchange).2 = (executeSignal ex s2 now exchange).2).
Proof.
  intros Hsym.
  assert (order_symbol s2 = order_symbol s1) as Hos
    by (unfold order_symbol; by rewrite Hsym).
  split_and!.
  - apply start_in_flight.
  - intros ex1 req Hs1.
    pose proof Hs1 as (Hn & Hex1 & Hq)%start_awaiting.
    assert (executeSignal_start ex1 s2 = (ex1, Returned AlreadyExecuting)) as Hs2.
    { apply start_in_flight. rewrite Hos, Hex1. cbn.
      apply elem_of_union. left. by apply elem_of_singleton. }
    unfold race. rewrite Hs1, Hs2. cbn [settle].
    destruct (executeSignal_resume ex1 (req_symbol req) s1 now (exchange req))
      as [ex3 r1] eqn:Hr. cbn.
    pose proof (resume_not_rejected ex1 (req_symbol req) s1 now (exchange req)) as Hnr.
    rewrite Hr in Hnr. cbn in Hnr.
    unfold exactly_one_proceeds. rewrite Hnr. done.
  - intros ex1 r Hs1.
    assert (ex1 = ex) as ->.
    { destruct (decide (order_symbol s1 ∈ executingOrders ex)) as [Hin|Hn].
      - rewrite start_in_flight in Hs1 by done. by injection Hs1.
      - destruct (start_free ex s1 Hn) as [(r' & Hr & _)|(req & Hr & _)];
          rewrite Hr in Hs1; [by injection Hs1 | discriminate]. }
    unfold race, executeSignal. rewrite Hs1. cbn [settle].
    destruct (executeSignal_start ex s2) as [ex2 st2].
    by destruct (settle ex2 s2 st2 now exchange).
Qed.

Lemma in_flight_rejection_witness :
  exactly_one_proceeds
    (race (OrderExecutor.new bot_low_100) buy_btc buy_btc 1 (λ _, Filled "7")).1.2
    (race (OrderExecutor.new bot_low_100) buy_btc buy_btc 1 (λ _, Filled "7")).2.
Proof.
  destruct (in_flight_rejection (OrderExecutor.new bot_low_100) buy_btc buy_btc 1
              (λ _, Filled "7")) as (_ & H & _).
  - reflexivity.
  - by eapply H.
Defined.

(* Two buy calls for one symbol on a balance too small to trade: the
   first returns before the exchange call, so the second is not
   rejected as in flight either. *)
Lemma race_both_proceed :
  ¬ (∀ (ex : Executor) (s1 s2 : Signal) (now : Z)
       (exchange : OrderRequest → OrderOutcome),
       symbol (sig_token s2) = symbol (sig_token s1) →
       exactly_one_proceeds (race ex s1 s2 now exchange).1.2
                            (race ex s1 s2 now exchange).2).
Proof.
  intros H.
  specialize (H (OrderExecutor.new bot_poor) buy_btc buy_btc 1%Z
                (λ _, Filled "7") eq_refl).
  by vm_compute in H.
Qed.

Example race_below_minimum :
  (race (OrderExecutor.new bot_poor) buy_btc buy_btc 1 (λ _, Filled "7")).1.2
  = BelowMinimum
  ∧ (race (OrderExecutor.new bot_poor) buy_btc buy_btc 1 (λ _, Filled "7")).2
    = BelowMinimum.
Proof. by vm_compute. Qed.

End Guard.

(* --------------------------------------------------------------------- *)
(* Scenario: 10000 of balance, BTC from 100 to 102                        *)
(* --------------------------------------------------------------------- *)

Section Scenario.
Import Num Config TradingBot OrderExecutor Props.
Local Open Scope Qc_scope.

Ltac qc_eval := apply Qc_is_canon; vm_compute; reflexivity.

(** C6, as the code has it: with balance 10000, tradeAmountPercent 25,
    minTradeAmount 1, no position and a tracked low of 100, a tick at 102
    emits one buy signal; executing it with the exchange filling the
    order spends a notional of 2500 for a quantity of 2500 / 102
    (about 24.5098, the quantity sent to the exchange), not 25, leaves a
    balance of 7500 and exactly one position, for BTC, with entry price
    and peak both 102. *)
Theorem scenario_buy (now : Z) (orderId : string) :
  let exchange := λ _ : OrderRequest, Filled orderId in
  ∃ s req trade pos,
    scenario_tick.2 = [s]
    ∧ sig_type s = Buy
    ∧ sig_token s = btc (num 102)
    ∧ (executeSignal_start (OrderExecutor.new scenario_tick.1) s).2 = Awaiting req
    ∧ req_symbol req = "BTCUSDT"
    ∧ req_side req = Buy
    ∧ req_qty req = dec 245098 10000
    ∧ let ex' := (executeSignal (OrderExecutor.new scenario_tick.1) s now exchange).1 in
      (executeSignal (OrderExecutor.new scenario_tick.1) s now exchange).2
      = Executed trade orderId
      ∧ total trade = num 2500
      ∧ trade_amount trade = num 2500 / num 102
      ∧ balance (tradingBot ex') = num 7500
      ∧ size (positions (tradingBot ex')) = 1%nat
      ∧ positions (tradingBot ex') !! "BTC" = Some pos
      ∧ amount pos = num 2500 / num 102
      ∧ amount pos ≠ num 25
      ∧ buyPrice pos = num 102
      ∧ peakPrice pos = num 102
      ∧ executingOrders ex' = ∅.
Proof.
  intros exchange. do 4 eexists.
  split; [by vm_compute|].
  split; [reflexivity|]. split; [reflexivity|].
  split; [by vm_compute|].
  split; [reflexivity|]. split; [reflexivity|].
  split; [qc_eval|].
  cbn zeta.
  split; [by vm_compute|].
  split; [qc_eval|]. split; [qc_eval|]. split; [qc_eval|].
  split; [by vm_compute|].
  split; [by vm_compute|].
  split; [qc_eval|].
  split; [by vm_compute|].
  split; [qc_eval|]. split; [qc_eval|].
  by vm_compute.
Qed.

(* The quantity bought in the scenario is 2500 / 102, not 25. *)
Lemma scenario_quantity_not_25 :
  ¬ ∃ s trade pos,
      scenario_tick.2 = [s]
      ∧ (executeSignal (OrderExecutor.new scenario_tick.1) s 1
           (λ _, Filled "7")).2 = Executed trade "7"
      ∧ total trade = num 2500
      ∧ trade_amount trade = num 25
      ∧ balance (tradingBot (executeSignal (OrderExecutor.new scenario_tick.1) s 1
                               (λ _, Filled "7")).1) = num 7500
      ∧ positions (tradingBot (executeSignal (OrderExecutor.new scenario_tick.1) s 1
                                 (λ _, Filled "7")).1) !! "BTC" = Some pos
      ∧ buyPrice pos = num 102
      ∧ peakPrice pos = num 102.
Proof.
  intros (s & trade & pos & Hs & Hr & _ & Hq & _).
  vm_compute in Hs. injection Hs as <-.
  vm_compute in Hr. injection Hr as <-.
  by vm_compute in Hq.
Qed.

End Scenario.

(* --------------------------------------------------------------------- *)
(* PriceTracker: a price for a symbol that is not monitored               *)
(* --------------------------------------------------------------------- *)

Section Tracker.
Import Num Config MarketData.
Local Open Scope Qc_scope.

Lemma is_zero_eq (p : Qc) : is_zero p = true → p = 0.
Proof. intros H. apply Qc_is_canon. by apply Qeq_bool_eq. Qed.

Lemma getPrice_insert (md : Tracker) (sym : string) (price : Qc) (now : Z) :
  getPrice (updatePrice md sym price now) sym = price.
Proof.
  unfold getPrice, updatePrice. cbn. rewrite lookup_insert_eq.
  destruct (is_zero price) eqn:E; [|done]. symmetry. by apply is_zero_eq.
Qed.

(** C9, as the code has it: updatePrice for a symbol whose base token is
    not monitored leaves the monitored entries, the top gainers, the
    static tokens and the refresh time as they are, but it does record
    the price in the price map: getPrice then returns the new price for
    that symbol, and what it returned before for every other symbol. *)
Theorem updatePrice_unmonitored (md : Tracker) (sym : string) (price : Qc)
    (now : Z) :
  monitoredTokens md !! getBaseToken sym = None →
  let md' := updatePrice md sym price now in
  monitoredTokens md' = monitoredTokens md
  ∧ topGainers md' = topGainers md
  ∧ staticTokens md' = staticTokens md
  ∧ lastTopGainersUpdate md' = lastTopGainersUpdate md
  ∧ prices md' = <[sym := price]> (prices md)
  ∧ getPrice md' sym = price
  ∧ ∀ other, other ≠ sym → getPrice md' other = getPrice md other.
Proof.
  intros Hnone md'. split_and!; try done.
  - unfold md', updatePrice. cbn. by rewrite Hnone.
  - apply getPrice_insert.
  - intros other Hne. unfold md', getPrice, updatePrice. cbn.
    by rewrite lookup_insert_ne.
Qed.

Lemma updatePrice_unmonitored_witness :
  getPrice (updatePrice (MarketData.new ["BTC"]) "DOGEUSDT" (num 5) 1) "DOGEUSDT"
  = num 5.
Proof.
  destruct (updatePrice_unmonitored (MarketData.new ["BTC"]) "DOGEUSDT" (num 5) 1)
    as (_ & _ & _ & _ & _ & H & _).
  - reflexivity.
  - exact H.
Defined.

(* For a symbol that is not monitored the call is not a no-op: the price
   read back by getPrice goes from 0 to the new price. *)
Lemma updatePrice_unmonitored_not_noop :
  ¬ (∀ (md : Tracker) (sym : string) (price : Qc) (now : Z),
       monitoredTokens md !! getBaseToken sym = None →
       updatePrice md sym price now = md
       ∧ getPrice (updatePrice md sym price now) sym = getPrice md sym).
Proof.
  intros H.
  destruct (H (MarketData.new ["BTC"]) "DOGEUSDT" (num 5) 1%Z eq_refl) as [_ Hg].
  by vm_compute in Hg.
Qed.

End Tracker.

(* --------------------------------------------------------------------- *)
(* Symbols: base token and full symbol                                    *)
(* --------------------------------------------------------------------- *)

Section Symbols.
Import Config.
Local Arguments String.append !_ _ / : simpl nomatch.

Lemma str_app_inv_head (a x y : string) : a +:+ x = a +:+ y → x = y.
Proof. induction a as [|c a IH]; simpl; [done|]. intros [= H]. by apply IH. Qed.

Lemma roundtrip_absent (t : string) :
  index_of QUOTE_CURRENCY t = None → getBaseToken (getFullSymbol t) = t.
Proof.
  intros Hnone. pose proof (index_of_full t) as Hi. rewrite Hnone in Hi.
  unfold getBaseToken.
  replace (getFullSymbol t) with (t +:+ QUOTE_CURRENCY +:+ "") in *
    by (unfold getFullSymbol; by rewrite str_app_nil_r).
  rewrite (replace_first_at _ "" t "" Hi). simpl. apply str_app_nil_r.
Qed.

Lemma roundtrip_present (a b : string) :
  index_of QUOTE_CURRENCY (a +:+ QUOTE_CURRENCY +:+ b) = Some (String.length a) →
  getBaseToken (getFullSymbol (a +:+ QUOTE_CURRENCY +:+ b))
  = a +:+ b +:+ QUOTE_CURRENCY.
Proof.
  intros Hfirst. pose proof (index_of_full (a +:+ QUOTE_CURRENCY +:+ b)) as Hi.
  rewrite Hfirst in Hi. unfold getBaseToken.
  replace (getFullSymbol (a +:+ QUOTE_CURRENCY +:+ b))
    with (a +:+ QUOTE_CURRENCY +:+ (b +:+ QUOTE_CURRENCY)) in *
    by (unfold getFullSymbol; by rewrite !str_app_assoc).
  by rewrite (replace_first_at _ "" a _ Hi).
Qed.

(** C10, as the code has it: for every base token t in which "USDT"
    does not occur, getBaseToken (getFullSymbol t) = t, and getBaseToken
    leaves t itself as it is.  getBaseToken
    removes the first occurrence of "USDT" only; for a token
    t = a ++ "USDT" ++ b whose first occurrence of "USDT" starts after
    a, the round trip gives a ++ b ++ "USDT", which is t again exactly
    when b ++ "USDT" = "USDT" ++ b: the token "USDT" is restored, the
    token "USDTX" is not. *)
Theorem symbol_roundtrip (t : string) :
  (¬ contains QUOTE_CURRENCY t →
   getBaseToken (getFullSymbol t) = t ∧ getBaseToken t = t)
  ∧ (∀ a b,
       t = a +:+ QUOTE_CURRENCY +:+ b →
       index_of QUOTE_CURRENCY t = Some (String.length a) →
       getBaseToken t = a +:+ b
       ∧ getBaseToken (getFullSymbol t) = a +:+ b +:+ QUOTE_CURRENCY
       ∧ (getBaseToken (getFullSymbol t) = t
          ↔ b +:+ QUOTE_CURRENCY = QUOTE_CURRENCY +:+ b))
  ∧ getBaseToken (getFullSymbol "USDT") = "USDT"
  ∧ getBaseToken (getFullSymbol "USDTX") = "XUSDT".
Proof.
  split_and!; [| |reflexivity..].
  - intros Hn%index_of_None. split; [by apply roundtrip_absent|].
    by apply replace_first_absent.
  - intros a b -> Hfirst. split_and!.
    + unfold getBaseToken. by rewrite (replace_first_at _ "" a b Hfirst).
    + by apply roundtrip_present.
    + rewrite roundtrip_present by done. split.
      * by intros ?%str_app_inv_head.
      * by intros ->.
Qed.

Lemma symbol_roundtrip_witness :
  getBaseToken (getFullSymbol "BTC") = "BTC"
  ∧ getBaseToken (getFullSymbol "AUSDTB") = "ABUSDT".
Proof.
  split.
  - destruct (symbol_roundtrip "BTC") as (H & _). apply H.
    by apply index_of_None.
  - destruct (symbol_roundtrip "AUSDTB") as (_ & H & _).
    by destruct (H "A" "B" eq_refl eq_refl) as (_ & -> & _).
Defined.

(* A base token containing "USDT" that the round trip does restore. *)
Lemma roundtrip_restores_USDT :
  ¬ (∀ t : string,
       contains QUOTE_CURRENCY t → getBaseToken (getFullSymbol t) ≠ t).
Proof.
  intros H. apply (H "USDT"); [|reflexivity].
  by exists "", "".
Qed.

End Symbols.
